(** * LangSmith client memory-leak harness and the auto-batching engine it exercises

  The first part embeds [index.ts]: the installed [global.fetch] mock, the
  payload generator [generateRandomText], the producer tick of
  [traceInterval] and the final verdict of [replicateMemoryLeak]; further
  down, [formatBytes] with the report lines that use it, the two payloads
  and the arguments of [createRun].

  The second part is the ingestion engine the harness drives through
  [client.createRun].  Its code is not part of [index.ts]; it is modelled
  from the specification, and every such definition says so. *)

From Stdlib Require Import ZArith Lia Bool Ascii String List.
From stdpp Require Import base list sorting gmap.

Set Warnings "-register-all".

Import ListNotations.
Local Open Scope string_scope.

(** ** JavaScript strings

  A string is a sequence of code units; every literal of [index.ts] that is
  inspected character by character is ASCII, so one [ascii] stands for one
  code unit. *)

Module Js.

(** [String.prototype.includes]: some suffix of [s] starts with [needle]. *)
Fixpoint includes (needle s : string) : bool :=
  String.prefix needle s ||
  match s with
  | EmptyString => false
  | String _ rest => includes needle rest
  end.

(** [String.prototype.charAt]: the one-unit string at [pos], and the empty
    string when [pos] is out of range. *)
Definition charAt (s : string) (pos : nat) : string :=
  match String.get pos s with
  | Some c => String c EmptyString
  | None => EmptyString
  end.

(** The code unit U+0022, written by [JSON.stringify] around keys and
    string values. *)
Definition quote : ascii := ascii_of_nat 34.
Definition backslash : ascii := ascii_of_nat 92.

Inductive json : Type :=
| JString (s : string)
| JObject (fields : list (string * json)).

(** String escaping of [JSON.stringify], for the two printable code units
    it escapes. *)
Fixpoint escape (s : string) : string :=
  match s with
  | EmptyString => EmptyString
  | String c rest =>
      if Ascii.eqb c quote then String backslash (String quote (escape rest))
      else if Ascii.eqb c backslash
           then String backslash (String backslash (escape rest))
           else String c (escape rest)
  end.

Definition quoted (s : string) : string :=
  String quote (escape s) ++ String quote EmptyString.

Fixpoint stringify (j : json) : string :=
  match j with
  | JString s => quoted s
  | JObject fields =>
      let member (kv : string * json) :=
        quoted (fst kv) ++ ":" ++ stringify (snd kv) in
      "{" ++ String.concat "," (List.map member fields) ++ "}"
  end.

End Js.

(** ** The harness, [index.ts] *)

Module Harness.

(** *** [global.fetch] (lines 19-32) *)

(** What the mock may be handed as [input]: a string, an object whose [url]
    property is a string (a [Request]), an object without one (a [URL]), or
    a nullish value. *)
Inductive fetch_input : Type :=
| InputString (s : string)
| InputRequest (url : string)
| InputNoUrl
| InputNullish.

Inductive js_value : Type :=
| VString (s : string)
| VUndefined.

Inductive js_error : Type :=
| TypeError
| Error (message : string).

Record Response : Type := mkResponse {
  body : string;
  status : Z;
  statusText : string;
  headers : list (string * string)
}.

(** An [async] function never throws to its caller: it returns a promise
    that is fulfilled with the returned value or rejected with the thrown
    one. *)
Inductive settled (A : Type) : Type :=
| Fulfilled (v : A)
| Rejected (e : js_error).
Arguments Fulfilled {A} v.
Arguments Rejected {A} e.

(** The observable effects of one call: lines written with [console.log],
    requests handed on to a real network stack, and the promise. *)
Record fetch_result : Type := mkFetchResult {
  logged : list string;
  network : list string;
  promise : settled Response
}.

(** [typeof input === "string" ? input : input.url] *)
Definition read_url (input : fetch_input) : js_error + js_value :=
  match input with
  | InputString s => inr (VString s)
  | InputRequest u => inr (VString u)
  | InputNoUrl => inr VUndefined
  | InputNullish => inl TypeError
  end.

(** [url.includes("api.smith.langchain")]; the member call throws on
    [undefined]. *)
Definition call_includes (url : js_value) (needle : string) : js_error + bool :=
  match url with
  | VString s => inr (Js.includes needle s)
  | VUndefined => inl TypeError
  end.

Definition collector_host : string := "api.smith.langchain".

Definition bad_gateway_response : Response :=
  {| body := Js.stringify (Js.JObject [("error", Js.JString "Bad Gateway")]);
     status := 429;
     statusText := "Bad Gateway";
     headers := [("Content-Type", "application/json")] |}.

Definition url_text (url : js_value) : string :=
  match url with
  | VString s => s
  | VUndefined => "undefined"
  end.

Definition fetch (input : fetch_input) : fetch_result :=
  match read_url input with
  | inl e => mkFetchResult [] [] (Rejected e)
  | inr url =>
      match call_includes url collector_host with
      | inl e => mkFetchResult [] [] (Rejected e)
      | inr true => mkFetchResult [] [] (Fulfilled bad_gateway_response)
      | inr false =>
          mkFetchResult ["Unexpected fetch call: " ++ url_text url] []
                        (Rejected (Error "Should never happen"))
      end
  end.

(** The URL of a request, when it has one. *)
Definition request_url (input : fetch_input) : option string :=
  match input with
  | InputString s | InputRequest s => Some s
  | InputNoUrl | InputNullish => None
  end.

(** *** [generateRandomText] (lines 106-113) *)

(** A finite non-negative IEEE-754 double, as the dyadic rational
    [mant * 2 ^ expo]; the significand has at most 53 bits. *)
Record double : Type := mkDouble { mant : Z; expo : Z }.

(** The values [Math.random()] may return: doubles [d] with [0 <= d < 1]. *)
Definition in_unit_interval (d : double) : bool :=
  (0 <=? mant d)%Z && (mant d <? 2 ^ 53)%Z &&
  (expo d <? 0)%Z && (mant d <? 2 ^ (- expo d))%Z.

(** Round the integer [M] to 53 significant bits, ties to even: the result
    [(q, k)] stands for [q * 2 ^ k]. *)
Definition round_significand (M : Z) : Z * Z :=
  let k := Z.max 0 (Z.log2 M + 1 - 53) in
  let q := (M / 2 ^ k)%Z in
  let r := (M mod 2 ^ k)%Z in
  let q' := if (2 * r <? 2 ^ k)%Z then q
            else if (2 ^ k <? 2 * r)%Z then (q + 1)%Z
            else if Z.even q then q else (q + 1)%Z in
  (q', k).

(** [d * n] for a small non-negative integer [n] (here [chars.length]): the
    exact product, rounded to nearest. *)
Definition mul_int (d : double) (n : Z) : double :=
  let (q, k) := round_significand (mant d * n) in
  mkDouble q (expo d + k).

(** [Math.floor] of a non-negative double. *)
Definition floor (d : double) : Z :=
  if (0 <=? expo d)%Z then (mant d * 2 ^ expo d)%Z
  else (mant d / 2 ^ (- expo d))%Z.

Definition chars : string :=
  "ABCDEFGHIJKLMNOPQRSTUVWXYZabcdefghijklmnopqrstuvwxyz0123456789 .,!?".

(** [Math.floor(Math.random() * chars.length)] for the value [r] returned by
    [Math.random()]. *)
Definition random_index (r : double) : nat :=
  Z.to_nat (floor (mul_int r (Z.of_nat (String.length chars)))).

(** The loop [for (let i = 0; i < length; i++)], by the number of iterations
    left; [random] is the sequence of values [Math.random()] returns and
    [calls] counts the calls made so far in the process. *)
Fixpoint generate_loop (random : nat -> double) (calls remaining : nat)
    (result : string) : string :=
  match remaining with
  | O => result
  | S remaining' =>
      generate_loop random (S calls) remaining'
        (result ++ Js.charAt chars (random_index (random calls)))
  end.

Definition generateRandomText (random : nat -> double) (calls length : nat)
    : string :=
  generate_loop random calls length "".

(** Membership of a code unit in a string. *)
Fixpoint occurs (c : ascii) (s : string) : bool :=
  match s with
  | EmptyString => false
  | String c' rest => Ascii.eqb c c' || occurs c rest
  end.

Fixpoint drawn_from (alphabet s : string) : bool :=
  match s with
  | EmptyString => true
  | String c rest => occurs c alphabet && drawn_from alphabet rest
  end.

(** *** The producer tick of [traceInterval] (lines 168-192) *)

(** A value that is thrown, or that a promise is rejected with, as far as
    the template literal of line 190 reads it: an object whose [toString]
    is [Error.prototype.toString], with what its [name] and [message]
    properties hold, a string, [undefined] or [null]. *)
Inductive js_thrown : Type :=
| ErrorObject (name message : js_value)
| ThrownString (s : string)
| ThrownUndefined
| ThrownNull.

(** [Error.prototype.toString]: an undefined [name] reads as ["Error"] and
    an undefined [message] as the empty string; when one of the two is
    empty the other is the result, otherwise they are joined by [": "]. *)
Definition Error_toString (name message : js_value) : string :=
  let name := match name with VString s => s | VUndefined => "Error" end in
  let msg := match message with VString s => s | VUndefined => "" end in
  match name, msg with
  | EmptyString, _ => msg
  | _, EmptyString => name
  | _, _ => name ++ ": " ++ msg
  end.

(** [`${error}`]: the string conversion of the value caught in line 189. *)
Definition error_text (error : js_thrown) : string :=
  match error with
  | ErrorObject name message => Error_toString name message
  | ThrownString s => s
  | ThrownUndefined => "undefined"
  | ThrownNull => "null"
  end.

Definition newline : string := String (ascii_of_nat 10) EmptyString.

(** The line of line 190. *)
Definition sync_error_line (error : js_thrown) : string :=
  newline ++ "!!! Synchronous error creating run: " ++ error_text error.

(** The state of a promise: fulfilled, rejected, or not yet settled. *)
Inductive settlement : Type :=
| Resolves
| Rejects (e : js_thrown)
| Pends.

(** A promise object: its state, the number of rejection handlers attached
    to it, and the promises its [then] and [catch] calls returned, which
    settle when it does.  Promises live in a heap, a list in allocation
    order, and a reference to a promise is its position there: the client
    that settles a promise and the harness that attaches a handler to it
    hold the same object. *)
Record js_promise : Type := mkPromise {
  outcome : settlement;
  rejection_handlers : nat;
  derived : list nat
}.


(** One more rejection handler on a promise, with the promise [d] created
    for its result. *)
Definition attach (d : nat) (p : js_promise) : js_promise :=
  mkPromise (outcome p) (S (rejection_handlers p)) (derived p ++ [d])%list.

(** The state in which the promise returned by [catch] starts: the handler
    of line 183 returns normally, so that promise is fulfilled as soon as
    the source is settled either way. *)
Definition caught (source : option js_promise) : settlement :=
  match source with
  | Some p => match outcome p with Pends => Pends | _ => Resolves end
  | None => Pends
  end.

(** [p.catch(handler)] for a handler that returns normally: the promise at
    [p] gains a rejection handler, and a new promise is allocated and
    returned. *)
Definition catch (p : nat) (heap : list js_promise) : list js_promise * nat :=
  let d := length heap in
  ((alter (attach d) p heap ++ [mkPromise (caught (heap !! p)) 0 []])%list, d).

(** What [client.createRun(...)] does when called: throw synchronously, or
    return a new promise, in the given state. *)
Inductive createRun_result : Type :=
| Throws (e : js_thrown)
| Returns (s : settlement).

(** The process as the harness and Node see it: the counter, the lines
    written with [console.error], the heap of promises, and the promises
    [createRun] has returned, which the client settles when their sends
    end. *)
Record producer : Type := mkProducer {
  traceCount : nat;
  console_error : list string;
  promises : list js_promise;
  returned : list nat
}.

(** The call of line 172 from outside: a throw, or a promise allocated
    without any handler, to which the client keeps a reference. *)
Definition createRun (r : createRun_result) (st : producer)
    : producer * (js_thrown + nat) :=
  match r with
  | Throws e => (st, inl e)
  | Returns s =>
      let runPromise := length (promises st) in
      (mkProducer (traceCount st) (console_error st)
                  (promises st ++ [mkPromise s 0 []])%list
                  (returned st ++ [runPromise])%list,
       inr runPromise)
  end.

Definition traceInterval_tick (st : producer) (r : createRun_result) : producer :=
  match createRun r st with
  | (st, inr runPromise) =>
      let (heap, _) := catch runPromise (promises st) in
      {| traceCount := S (traceCount st);
         console_error := console_error st;
         promises := heap;
         returned := returned st |}
  | (st, inl error) =>
      {| traceCount := traceCount st;
         console_error := (console_error st ++ [sync_error_line error])%list;
         promises := promises st;
         returned := returned st |}
  end.

Definition producer_start : producer := mkProducer 0 [] [] [].

Definition run_ticks (rs : list createRun_result) : producer :=
  fold_left traceInterval_tick rs producer_start.



(** The state [s] in place of the state of [p]. *)
Definition set_outcome (s : settlement) (p : js_promise) : js_promise :=
  mkPromise s (rejection_handlers p) (derived p).

(** The client settles a promise it returned earlier.  Only a pending
    promise changes; its rejection handlers run, and the promises derived
    from it are fulfilled, as every handler attached in this program
    returns normally.  Nothing hangs on a derived promise: line 183 drops
    the value of the [catch] call. *)
Definition settle (p : nat) (s : settlement) (st : producer) : producer :=
  if bool_decide (p ∈ returned st)
  then match promises st !! p, s with
       | Some (mkPromise Pends handlers ds), (Resolves | Rejects _) =>
           {| traceCount := traceCount st;
              console_error := console_error st;
              promises :=
                fold_left (fun heap d => alter (set_outcome Resolves) d heap) ds
                          (alter (set_outcome s) p (promises st));
              returned := returned st |}
       | _, _ => st
       end
  else st.

(** What happens in the process while the test runs: the interval callback
    fires and makes its call, or the client settles a promise. *)
Inductive process_event : Type :=
| Tick (r : createRun_result)
| Settle (p : nat) (s : settlement).

Definition process_step (st : producer) (ev : process_event) : producer :=
  match ev with
  | Tick r => traceInterval_tick st r
  | Settle p s => settle p s st
  end.

Definition process_run (evs : list process_event) : producer :=
  fold_left process_step evs producer_start.




(** The error of the report this harness reproduces (line 12). *)
Definition stream_error : js_thrown :=
  ErrorObject (VString "TypeError")
              (VString "Cannot cancel a stream that already has a reader").

(** One call returns a pending promise, the next one throws, a third
    returns a promise that is rejected already; then the send behind the
    first promise fails. *)
Definition sample_ticks : list process_event :=
  [Tick (Returns Pends); Tick (Throws stream_error);
   Tick (Returns (Rejects (ThrownString "429")))].

(** *** The verdict of [replicateMemoryLeak] (lines 200-226) *)

(** [process.memoryUsage()], in bytes.  The samples are integers far below
    [2 ^ 53], on which the double subtraction and comparison are exact. *)
Record MemoryUsage : Type := mkMemoryUsage {
  rss : Z;
  heapTotal : Z;
  heapUsed : Z;
  external : Z
}.

(** Everything in scope at line 221. *)
Record final_state : Type := mkFinalState {
  initialMemory : MemoryUsage;
  finalMemory : MemoryUsage;
  afterWaitMemory : MemoryUsage;
  traces : nat;
  queueSize : nat
}.

Definition heapGrowth (st : final_state) : Z :=
  (heapUsed (finalMemory st) - heapUsed (initialMemory st))%Z.

Definition leak_line : string :=
  newline ++ "⚠️  MEMORY LEAK DETECTED: Heap grew by more than 50MB".

Definition normal_line : string :=
  newline ++ "✓ Memory growth appears normal".

Definition verdict (st : final_state) : string :=
  if (50 * 1024 * 1024 <? heapGrowth st)%Z then leak_line else normal_line.

(** *** Sample values *)

(** [Math.random()] returning one half every time. *)
Definition always_half (_ : nat) : double := mkDouble (2 ^ 52)%Z (-53)%Z.

(** The text [JSON.stringify] produces for the body of the mocked answer. *)
Definition bad_gateway_json : string :=
  let q := String Js.quote "" in
  "{" ++ q ++ "error" ++ q ++ ":" ++ q ++ "Bad Gateway" ++ q ++ "}".

(** A run whose heap grew by exactly 50 MB, and one byte more. *)
Definition quiet_run : final_state :=
  {| initialMemory := mkMemoryUsage 90000000 60000000 40000000 2000000;
     finalMemory := mkMemoryUsage 190000000 12000000 92428800 2000000;
     afterWaitMemory := mkMemoryUsage 190000000 12000000 50000000 2000000;
     traces := 1200;
     queueSize := 1190 |}.

Definition leaking_run : final_state :=
  {| initialMemory := mkMemoryUsage 90000000 60000000 40000000 2000000;
     finalMemory := mkMemoryUsage 190000000 120000000 92428801 2000000;
     afterWaitMemory := mkMemoryUsage 100000000 70000000 41000000 2000000;
     traces := 1200;
     queueSize := 0 |}.

End Harness.

(** ** The ingestion engine

    [index.ts] only calls the engine ([client.createRun]) and reads two of its
    fields; the engine itself is taken from the specification, sections 3 to
    7. *)

Module Engine.

Local Open Scope nat_scope.
Local Open Scope list_scope.

(** Modelled from the spec: the Record of section 3 (the engine is not in
    [index.ts]): an identifier, the ordering key [dotted_order], a payload
    and the size estimate computed at enqueue time. *)
Record Rec : Type := mkRec {
  rec_id : nat;
  dotted_order : string;
  payload : string;
  size_bytes : nat
}.

(** Modelled from the spec: a Record as the engine holds it, with the number
    of times it has been requeued (section 4.3, maximum retry count per
    Record).  The Record itself is never changed. *)
Record Entry : Type := mkEntry {
  item : Rec;
  retries : nat
}.

(** Modelled from the spec: a Batch is an ordered group of Records. *)
Abbreviation Batch := (list Entry).

(** Modelled from the spec: the three values of [queueFullPolicy]
    (section 6). *)
Inductive QueueFullPolicy : Type := reject | dropOldest | block.

(** Modelled from the spec: the recognised options of section 6. *)
Record Config : Type := mkConfig {
  maxQueueBytes : nat;
  maxBatchItems : nat;
  maxBatchBytes : nat;
  maxDrainConcurrency : nat;
  minBatchFlushIntervalMs : nat;
  maxRetriesPerRecord : nat;
  backoffBaseMs : nat;
  backoffMaxMs : nat;
  queueFullPolicy : QueueFullPolicy
}.

(** Modelled from the spec: SendOutcome, the tagged result the Transport
    Adapter produces for a Batch (section 3). *)
Inductive SendOutcome : Type :=
| Success
| RetryableFailure (reason : string)
| FatalFailure (reason : string).

(** Modelled from the spec: why an enqueue is turned down: the cap
    (section 4.1) or a shutdown that stopped intake (section 4.5). *)
Inductive RejectReason : Type := QueueFull | ShutDown.

(** Modelled from the spec: [enqueue] answers [Accepted] or [Rejected]; under
    the policy [block] the call does not return while the cap is reached,
    which is the third answer: the engine is left as it was, and the call
    goes through as the same [enqueue] once the state has room. *)
Inductive EnqueueResult : Type :=
| Accepted
| Rejected (reason : RejectReason)
| Blocked.

(** Modelled from the spec: the Record Buffer (oldest Record first), the
    in-flight Batches, the consecutive-failure counter and the lifecycle
    flag; [sent] is what the Transport Adapter was handed, in dispatch
    order, and [sink] what the observability sink received. *)
Record State : Type := mkState {
  buffer : list Entry;
  inflight : list Batch;
  consecutiveFailures : nat;
  accepting : bool;
  sent : list Batch;
  sink : list string
}.

(** Modelled from the spec: the engine after [start]: nothing buffered,
    nothing in flight, intake open. *)
Definition init : State := mkState [] [] 0 true [] [].

Definition entry_bytes (e : Entry) : nat := size_bytes (item e).
Definition entry_id (e : Entry) : nat := rec_id (item e).

Definition bytes (l : list Entry) : nat := sum_list_with entry_bytes l.

Definition inflight_bytes (bs : list Batch) : nat := bytes (concat bs).

(** Modelled from the spec: the byte total of section 3, Records resident in
    the buffer plus those of all in-flight Batches. *)
Definition resident_bytes (st : State) : nat :=
  bytes (buffer st) + inflight_bytes (inflight st).

(** The Records the engine holds, in-flight ones first. *)
Definition resident (st : State) : list Entry :=
  concat (inflight st) ++ buffer st.

(** Modelled from the spec: QueueState, the process-wide counters of
    section 3, always exact because they are read off the state. *)
Record QueueState : Type := mkQueueState {
  itemCount : nat;
  byteTotal : nat;
  inFlightBatches : nat;
  failureCount : nat
}.

(** Modelled from the spec: the counters handed to the Backpressure
    Controller and to monitoring. *)
Definition queueState (st : State) : QueueState :=
  {| itemCount := length (buffer st);
     byteTotal := resident_bytes st;
     inFlightBatches := length (inflight st);
     failureCount := consecutiveFailures st |}.

(** Modelled from the spec: displacing the oldest Records: drop from the
    front of [buf] until it fits in [cap] next to [fixed] other bytes. *)
Fixpoint trim (cap fixed : nat) (buf : list Entry) : list Entry :=
  match buf with
  | [] => []
  | e :: rest =>
      if fixed + bytes buf <=? cap then buf else trim cap fixed rest
  end.

(** Modelled from the spec: [enqueue] of section 4.1.  Capacity is enforced
    at enqueue time against the byte total; when the Record does not fit the
    configured policy decides.  Under [dropOldest] the Records that can be
    displaced are those of the buffer: a Batch in flight is owned by its send
    until the outcome is known (section 3).  When the Record does not fit
    beside the in-flight Batches even with the buffer emptied, no
    displacement keeps the hard cap, which sections 3, 4.1 and 8 put first;
    the answer is then the one rejection the producer API has, [QueueFull]
    (section 6), and nothing is displaced. *)
Definition enqueue (cfg : Config) (r : Rec) (st : State) : EnqueueResult * State :=
  let e := mkEntry r 0 in
  if negb (accepting st) then (Rejected ShutDown, st)
  else if resident_bytes st + size_bytes r <=? maxQueueBytes cfg
  then (Accepted,
        mkState (buffer st ++ [e]) (inflight st) (consecutiveFailures st)
                (accepting st) (sent st) (sink st))
  else
    match queueFullPolicy cfg with
    | reject => (Rejected QueueFull, st)
    | block => (Blocked, st)
    | dropOldest =>
        let fixed := inflight_bytes (inflight st) + size_bytes r in
        if fixed <=? maxQueueBytes cfg
        then (Accepted,
              mkState (trim (maxQueueBytes cfg) fixed (buffer st) ++ [e])
                      (inflight st) (consecutiveFailures st) (accepting st)
                      (sent st) (sink st))
        else (Rejected QueueFull, st)
    end.

(** Modelled from the spec: [takeUpTo] of section 4.1: the longest run of
    Records from the front of the buffer within both bounds, and what is
    left. *)
Fixpoint takeUpTo (maxCount maxBytes : nat) (buf : list Entry)
    : list Entry * list Entry :=
  match maxCount, buf with
  | S n, e :: rest =>
      if entry_bytes e <=? maxBytes
      then let (taken, remaining) := takeUpTo n (maxBytes - entry_bytes e) rest in
           (e :: taken, remaining)
      else ([], buf)
  | _, _ => ([], buf)
  end.

(** Modelled from the spec: one drain of section 4.3: when fewer than the
    allowed number of Batches are in flight, claim the next Batch by removing
    it from the buffer and hand it to the Transport Adapter; otherwise, and
    when nothing is ready, a no-op.  The Batcher's deferral of small Batches
    (section 4.2) and a concurrency lowered by the Backpressure Controller
    only turn more drains into no-ops. *)
Definition drain (cfg : Config) (st : State) : State :=
  if length (inflight st) <? maxDrainConcurrency cfg
  then match takeUpTo (maxBatchItems cfg) (maxBatchBytes cfg) (buffer st) with
       | ([], _) => st
       | (b, rest) =>
           mkState rest (inflight st ++ [b]) (consecutiveFailures st)
                   (accepting st) (sent st ++ [b]) (sink st)
       end
  else st.

(** Modelled from the spec: a requeue counts against the Record's retries
    (section 4.3). *)
Definition retry (e : Entry) : Entry := mkEntry (item e) (S (retries e)).

(** Modelled from the spec: the Records of a failed Batch that go back to the
    buffer, in their order: those below the maximum retry count. *)
Definition requeued (cfg : Config) (b : Batch) : list Entry :=
  retry <$> filter (fun e => retries e < maxRetriesPerRecord cfg) b.

(** Modelled from the spec: the outcome of the [i]-th in-flight Batch
    arrives (section 4.3). *)
Definition complete (cfg : Config) (i : nat) (o : SendOutcome) (st : State) : State :=
  match inflight st !! i with
  | None => st
  | Some b =>
      let others := delete i (inflight st) in
      match o with
      | Success =>
          mkState (buffer st) others 0 (accepting st) (sent st) (sink st)
      | RetryableFailure _ =>
          mkState (trim (maxQueueBytes cfg) (inflight_bytes others)
                        (requeued cfg b ++ buffer st))
                  others (S (consecutiveFailures st)) (accepting st)
                  (sent st) (sink st)
      | FatalFailure reason =>
          mkState (buffer st) others (S (consecutiveFailures st))
                  (accepting st) (sent st) (sink st ++ [reason])
      end
  end.

(** Modelled from the spec: [shutdown] of section 4.5 stops intake; the
    best-effort flush that follows is made of drains and completions. *)
Definition shutdown (st : State) : State :=
  mkState (buffer st) (inflight st) (consecutiveFailures st) false
          (sent st) (sink st).

(** Modelled from the spec: the end of [shutdown]: everything still held is
    released, whatever the flush achieved. *)
Definition release (st : State) : State :=
  mkState [] [] (consecutiveFailures st) (accepting st) (sent st) (sink st).

(** Modelled from the spec: what can happen to the engine; each event is
    atomic, as all access to the buffer and the counters is serialised
    (section 5), and the events of producers, drains and the transport
    interleave freely. *)
Inductive Event : Type :=
| Enqueue (r : Rec)
| Drain
| Complete (i : nat) (o : SendOutcome)
| Shutdown
| Release.

(** Modelled from the spec: the engine's reaction to one event. *)
Definition step (cfg : Config) (st : State) (ev : Event) : State :=
  match ev with
  | Enqueue r => snd (enqueue cfg r st)
  | Drain => drain cfg st
  | Complete i o => complete cfg i o st
  | Shutdown => shutdown st
  | Release => release st
  end.

(** Modelled from the spec: an execution, event by event. *)
Definition run (cfg : Config) (evs : list Event) (st : State) : State :=
  fold_left (step cfg) evs st.

(** The Records a sequence of events offers to [enqueue], in order. *)
Definition enqueued (evs : list Event) : list Rec :=
  flat_map (fun ev => match ev with Enqueue r => [r] | _ => [] end) evs.





(** The identifiers of the Records the engine holds. *)
Definition resident_ids (st : State) : list nat :=
  entry_id <$> resident st.

(** The Records the engine holds, without their retry counts. *)
Definition resident_items (st : State) : list Rec :=
  item <$> resident st.






(** *** Sample configurations and runs *)

(** A Record of [n] bytes with identifier [id]. *)
Definition sample (id n : nat) : Rec := mkRec id "" "" n.

(** Batches of two Records, two drains at a time. *)
Definition demo_cfg (policy : QueueFullPolicy) : Config :=
  {| maxQueueBytes := 500;
     maxBatchItems := 2;
     maxBatchBytes := 300;
     maxDrainConcurrency := 2;
     minBatchFlushIntervalMs := 100;
     maxRetriesPerRecord := 1;
     backoffBaseMs := 50;
     backoffMaxMs := 3000;
     queueFullPolicy := policy |}.

Definition four_enqueues : list Event :=
  [Enqueue (sample 1 100); Enqueue (sample 2 100);
   Enqueue (sample 3 100); Enqueue (sample 4 100)].



(** Two Batches in flight together. *)
Definition two_in_flight : list Event := four_enqueues ++ [Drain; Drain].




(** The scenario of section 8, in units of 1 KB: the Records numbered
    [first], ..., [first + count - 1], one unit each. *)
Definition unit_records (first count : nat) : list Rec :=
  (fun id => sample id 1) <$> seq first count.

(** Batches of up to 100 Records and 16 drains at a time, the limits the
    harness advertises in [batch_ingest_config]; intervals in milliseconds. *)
Definition scenario_cfg : Config :=
  {| maxQueueBytes := 500;
     maxBatchItems := 100;
     maxBatchBytes := 2048;
     maxDrainConcurrency := 16;
     minBatchFlushIntervalMs := 100;
     maxRetriesPerRecord := 3;
     backoffBaseMs := 50;
     backoffMaxMs := 3000;
     queueFullPolicy := dropOldest |}.

End Engine.

(** ** Transport resources and their state tags *)

Module Transport.

Local Open Scope nat_scope.
Local Open Scope list_scope.

(** Modelled from the spec: the ownership state every transport resource
    carries (sections 4.3 and 9; the Transport Adapter is not in
    [index.ts]). *)
Inductive Tag : Type :=
| unclaimed
| in_use (owner : nat)
| closed.

(** Modelled from the spec: the handle [cancel] takes (section 6): it names
    a resource and the operation that claimed it. *)
Record Handle : Type := mkHandle {
  resource : nat;
  owner : nat
}.

(** Modelled from the spec: the error class of section 7 for finalizing or
    using a resource the caller does not own. *)
Inductive TransportError : Type := DualOwnershipViolation.

(** Modelled from the spec: the adapter's table of tags (a resource without
    an entry is unclaimed) and the log of resources released to the
    system. *)
Record Adapter : Type := mkAdapter {
  tags : gmap nat Tag;
  released : list nat
}.

(** Modelled from the spec: an adapter that has handed out nothing. *)
Definition fresh : Adapter := mkAdapter ∅ [].

(** Modelled from the spec: the tag a resource carries. *)
Definition tag_of (a : Adapter) (res : nat) : Tag :=
  default unclaimed (tags a !! res).

(** Modelled from the spec: claiming moves [unclaimed] to [in_use]; a
    resource that an operation owns or has finalized is never used again. *)
Definition claim (h : Handle) (a : Adapter) : TransportError + Adapter :=
  match tag_of a (resource h) with
  | unclaimed =>
      inr (mkAdapter (<[resource h := in_use (owner h)]> (tags a)) (released a))
  | in_use _ | closed => inl DualOwnershipViolation
  end.

(** Modelled from the spec: finalizing a resource (section 4.3): a no-op on
    a closed one, the release by its owner, and an error for anyone else. *)
Definition finalize (h : Handle) (a : Adapter) : TransportError + Adapter :=
  match tag_of a (resource h) with
  | closed => inr a
  | in_use o =>
      if decide (o = owner h)
      then inr (mkAdapter (<[resource h := closed]> (tags a))
                          (released a ++ [resource h]))
      else inl DualOwnershipViolation
  | unclaimed => inl DualOwnershipViolation
  end.

(** Modelled from the spec: [cancel(handle)] of section 6 finalizes the
    resource of the handle. *)
Definition cancel (h : Handle) (a : Adapter) : TransportError + Adapter :=
  finalize h a.

(** Modelled from the spec: the close at the end of a send, when the
    operation of the handle completes, finalizes it as well. *)
Definition finish (h : Handle) (a : Adapter) : TransportError + Adapter :=
  finalize h a.

(** Modelled from the spec: what concurrent operations ask of the adapter;
    the requests are served one at a time, in any order. *)
Inductive Op : Type :=
| Claim (h : Handle)
| Cancel (h : Handle)
| Finish (h : Handle).

(** Modelled from the spec: serving one request. *)
Definition apply (op : Op) (a : Adapter) : TransportError + Adapter :=
  match op with
  | Claim h => claim h a
  | Cancel h => cancel h a
  | Finish h => finish h a
  end.

(** Modelled from the spec: a request that fails leaves the adapter as it
    was (the error fails loudly, the state is not corrupted, section 7). *)
Definition exec (a : Adapter) (op : Op) : Adapter :=
  match apply op a with
  | inl _ => a
  | inr a' => a'
  end.

(** Modelled from the spec: a sequence of requests. *)
Definition run (ops : list Op) (a : Adapter) : Adapter :=
  fold_left exec ops a.

(** The resource of [h] is held by the owner of [h] or already closed. *)
Definition held_or_closed (h : Handle) (a : Adapter) : Prop :=
  tag_of a (resource h) = in_use (owner h) \/ tag_of a (resource h) = closed.

(** Every released resource is closed, and none was released twice. *)
Definition released_once (a : Adapter) : Prop :=
  NoDup (released a) /\ forall res, res ∈ released a -> tag_of a res = closed.

(** *** Sample handles *)

(** Two operations after the same resource. *)
Definition first_owner : Handle := mkHandle 7 1.
Definition second_owner : Handle := mkHandle 7 2.

(** The send of the first operation completes, then the second one tries to
    claim and to cancel the resource. *)
Definition after_completion : list Op :=
  [Finish first_owner; Claim second_owner; Cancel second_owner].

End Transport.

(** ** Outcomes of a send *)

Module Backpressure.

Import Engine.

Local Open Scope nat_scope.

(** Modelled from the spec: how the Transport Adapter reads an HTTP answer
    (section 1 names persistent 5xx and 429 responses and network failures
    as the collector failures the engine rides out); a request that ends
    without an answer is a network failure. *)
Definition classify (p : Harness.settled Harness.Response) : SendOutcome :=
  match p with
  | Harness.Fulfilled resp =>
      let code := Harness.status resp in
      if ((200 <=? code) && (code <? 300))%Z then Success
      else if ((code =? 429) || ((500 <=? code) && (code <? 600)))%Z
           then RetryableFailure (Harness.statusText resp)
           else FatalFailure (Harness.statusText resp)
  | Harness.Rejected _ => RetryableFailure "network failure"
  end.

End Backpressure.

(** ** Reports of the harness: numbers as text, [formatBytes] *)

Module Reporting.

Import Harness.

(** The decimal digit [d] as a string of one code unit. *)
Definition digit (d : N) : string :=
  String (ascii_of_N (48 + d)) EmptyString.

(** The decimal digits of [n], most significant first; [fuel] bounds the
    number of digits. *)
Fixpoint digits_of (fuel : nat) (n : N) : string :=
  match fuel with
  | O => EmptyString
  | S fuel' =>
      if (n <? 10)%N then digit n
      else digits_of fuel' (n / 10)%N ++ digit (n mod 10)%N
  end.

(** What a template literal makes of a non-negative integer below [10^21]:
    its decimal digits, without leading zeros. *)
Definition decimal (n : N) : string :=
  digits_of (S (N.to_nat (N.log2 n))) n.

(** Reading decimal digits back. *)
Definition digit_value (c : ascii) : N := (N_of_ascii c - 48)%N.

Fixpoint parse_digits (acc : N) (s : string) : N :=
  match s with
  | EmptyString => acc
  | String c rest => parse_digits (10 * acc + digit_value c)%N rest
  end.

Definition parse_decimal (s : string) : N := parse_digits 0 s.

Fixpoint zeros (count : nat) : string :=
  match count with
  | O => EmptyString
  | S count' => String "0"%char (zeros count')
  end.

(** [Number.prototype.toFixed(fractionDigits)] for a number below [10^21]
    whose exact value is [num / den], negated when [negative]: the integer
    [n] with [n / 10^fractionDigits] nearest to the value, the larger one of
    two; its digits, padded with zeros to more than [fractionDigits]; the
    point before the last [fractionDigits] digits; the sign in front. *)
Definition toFixed (fractionDigits : nat) (negative : bool) (num den : N)
    : string :=
  let n := ((2 * num * 10 ^ N.of_nat fractionDigits + den) / (2 * den))%N in
  let m := decimal n in
  let m := if Nat.leb (String.length m) fractionDigits
           then zeros (fractionDigits + 1 - String.length m) ++ m
           else m in
  let k := String.length m in
  let m := match fractionDigits with
           | O => m
           | S _ =>
               substring 0 (k - fractionDigits) m ++ "." ++
               substring (k - fractionDigits) fractionDigits m
           end in
  (if negative then "-" else "") ++ m.

(** [formatBytes] (lines 34-36).  [bytes] is an integer; dividing it twice
    by 1024 is exact in double arithmetic, so the value handed to [toFixed]
    is [bytes / 2^20]. *)
Definition formatBytes (bytes : Z) : string :=
  toFixed 2 (bytes <? 0)%Z (Z.to_N (Z.abs bytes)) (2 ^ 20)%N ++ " MB".

(** The hundredths of a megabyte [formatBytes] prints for [bytes]. *)
Definition hundredths (bytes : Z) : N :=
  ((2 * Z.to_N (Z.abs bytes) * 100 + 2 ^ 20) / 2 ^ 21)%N.

(** The second and third line of the memory monitor (lines 163-164). *)
Definition monitor_heap_line (initial current : MemoryUsage) : string :=
  "  Heap Used: " ++ formatBytes (heapUsed current) ++
  " (+" ++ formatBytes (heapUsed current - heapUsed initial)%Z ++ ")".

Definition monitor_rss_line (current : MemoryUsage) : string :=
  "  RSS: " ++ formatBytes (rss current).

(** The line of the final report that shows the heap growth (line 209). *)
Definition report_heap_growth_line (st : final_state) : string :=
  "Heap Growth: " ++ formatBytes (heapGrowth st).

End Reporting.

(** ** The payloads and the arguments of [createRun] *)

Module Payload.

Import Harness Reporting.

Set Warnings "-abstract-large-number".

(** A value of [Math.random()] in the middle of the [i]-th of 67 equal parts
    of the unit interval. *)
Definition middle_of (i : nat) : double :=
  mkDouble ((2 * Z.of_nat i + 1) * 2 ^ 52 / 67)%Z (-53)%Z.

(** How many values [Math.random()] and [Date.now()] have handed out. *)
Record oracle_state : Type := mkOracleState {
  random_calls : nat;
  clock_calls : nat
}.

(** A computation that draws on the two of them. *)
Definition Gen (A : Type) : Type := oracle_state -> A * oracle_state.

Definition ret {A : Type} (a : A) : Gen A := fun s => (a, s).

Definition bind {A B : Type} (c : Gen A) (k : A -> Gen B) : Gen B :=
  fun s => let (a, s') := c s in k a s'.

Local Notation "'do' x <- c ; k" := (bind c (fun x => k))
  (at level 10, x name, c at level 100, k at level 200).

(** [Array.from({ length }, (_, i) => f(i))]: the elements are computed in
    index order. *)
Fixpoint array_from_loop {A : Type} (f : nat -> Gen A) (i remaining : nat)
    : Gen (list A) :=
  match remaining with
  | O => ret []
  | S remaining' =>
      do x <- f i ;
      do xs <- array_from_loop f (S i) remaining' ;
      ret (x :: xs)
  end.

Definition array_from {A : Type} (length : nat) (f : nat -> Gen A)
    : Gen (list A) :=
  array_from_loop f 0 length.

Record ContextMetadata : Type := mkContextMetadata {
  section : nat;
  relevance : double
}.

Record ContextEntry : Type := mkContextEntry {
  id : string;
  content : string;
  timestamp : Z;
  metadata : ContextMetadata
}.

Record UserInfo : Type := mkUserInfo {
  user_id : string;
  session_id : string;
  preferences : string
}.

Record InputMetadata : Type := mkInputMetadata {
  request_id : string;
  input_timestamp : Z;
  version : string
}.

Record LargeInput : Type := mkLargeInput {
  query : string;
  context : list ContextEntry;
  user_info : UserInfo;
  input_metadata : InputMetadata
}.

Record Step : Type := mkStep {
  step : nat;
  action : string;
  observation : string;
  thought : string;
  score : double
}.

Record OutputMetadata : Type := mkOutputMetadata {
  processing_time_ms : double;
  model_version : string;
  tokens_used : Z
}.

Record LargeOutput : Type := mkLargeOutput {
  result : string;
  intermediate_steps : list Step;
  output_metadata : OutputMetadata;
  confidence : double
}.

(** The argument of [client.createRun] (lines 172-180); [inputs] is
    [largeInput] spread, with [iteration] added. *)
Record RunArgs : Type := mkRunArgs {
  name : string;
  run_type : string;
  inputs : LargeInput;
  iteration : nat;
  outputs : LargeOutput;
  project_name : string;
  trace_id : string;
  dotted_order : string
}.

Section Oracles.

(** The values [Math.random()] and [Date.now()] return, call by call; the
    digits [toString(36)] gives a double; the identifiers [v4()] returns,
    tick by tick. *)
Variable random : nat -> double.
Variable now : nat -> Z.
Variable toString36 : double -> string.
Variable v4 : nat -> string.

Definition math_random : Gen double :=
  fun s => (random (random_calls s),
            mkOracleState (S (random_calls s)) (clock_calls s)).

Definition date_now : Gen Z :=
  fun s => (now (clock_calls s),
            mkOracleState (random_calls s) (S (clock_calls s))).

(** [generateRandomText(length)] makes one call of [Math.random()] for each
    character. *)
Definition random_text (length : nat) : Gen string :=
  fun s => (generateRandomText random (random_calls s) length,
            mkOracleState (random_calls s + length) (clock_calls s)).

(** [Math.random().toString(36)] *)
Definition random_id : Gen string :=
  do r <- math_random ; ret (toString36 r).

(** One element of [largeInput.context] (lines 117-122). *)
Definition context_entry (i : nat) : Gen ContextEntry :=
  do entry_id <- random_id ;
  do text <- random_text 200 ;
  do t <- date_now ;
  do r <- math_random ;
  ret (mkContextEntry entry_id text (t + Z.of_nat i)%Z (mkContextMetadata i r)).

(** [largeInput] (lines 115-133) *)
Definition largeInput : Gen LargeInput :=
  do q <- random_text 5000 ;
  do ctx <- array_from 50 context_entry ;
  do uid <- random_id ;
  do sid <- random_id ;
  do prefs <- random_text 500 ;
  do rid <- random_id ;
  do t <- date_now ;
  ret (mkLargeInput q ctx (mkUserInfo uid sid prefs)
                    (mkInputMetadata rid t "1.0.0")).

(** One element of [largeOutput.intermediate_steps] (lines 137-143). *)
Definition intermediate_step (i : nat) : Gen Step :=
  do a <- random_text 150 ;
  do o <- random_text 150 ;
  do th <- random_text 100 ;
  do sc <- math_random ;
  ret (mkStep i a o th sc).

(** [largeOutput] (lines 135-150) *)
Definition largeOutput : Gen LargeOutput :=
  do res <- random_text 10000 ;
  do steps <- array_from 100 intermediate_step ;
  do time <- math_random ;
  do tokens <- math_random ;
  do conf <- math_random ;
  ret (mkLargeOutput res steps
         (mkOutputMetadata (mul_int time 1000) "gpt-4"
                           (floor (mul_int tokens 10000)))
         conf).

(** Both payloads, built once before the first tick. *)
Definition payloads : Gen (LargeInput * LargeOutput) :=
  do i <- largeInput ; do o <- largeOutput ; ret (i, o).

(** The name of a run, [`test-run-${traceCount}`]. *)
Definition run_name (traceCount : nat) : string :=
  "test-run-" ++ decimal (N.of_nat traceCount).

(** What the tick hands to [client.createRun] when the counter stands at
    [traceCount] and [v4()] returned [traceId]. *)
Definition createRun_args (li : LargeInput) (lo : LargeOutput)
    (traceCount : nat) (traceId : string) : RunArgs :=
  {| name := run_name traceCount;
     run_type := "chain";
     inputs := li;
     iteration := traceCount;
     outputs := lo;
     project_name := "memory-leak-test";
     trace_id := traceId;
     dotted_order := "20241013T070535809001Z" ++ traceId |}.

(** The calls of [client.createRun] made by the ticks from number [tick]
    on, each with what it did; the state of the producer moves as in
    [traceInterval_tick]. *)
Fixpoint calls_from (li : LargeInput) (lo : LargeOutput) (tick : nat)
    (st : producer) (rs : list createRun_result)
    : list (RunArgs * createRun_result) :=
  match rs with
  | [] => []
  | r :: rs' =>
      (createRun_args li lo (traceCount st) (v4 tick), r)
        :: calls_from li lo (S tick) (traceInterval_tick st r) rs'
  end.

(** The arguments of the calls that returned a promise. *)
Definition returned_calls (log : list (RunArgs * createRun_result))
    : list RunArgs :=
  flat_map (fun c => match snd c with
                     | Returns _ => [fst c]
                     | Throws _ => []
                     end) log.

End Oracles.

(** The characters of random text in the payloads. *)
Definition input_text_length (li : LargeInput) : nat :=
  String.length (query li) +
  list_sum (List.map (fun e => String.length (content e)) (context li)) +
  String.length (preferences (user_info li)).

Definition output_text_length (lo : LargeOutput) : nat :=
  String.length (result lo) +
  list_sum (List.map (fun st => String.length (action st) +
                                String.length (observation st) +
                                String.length (thought st))
                     (intermediate_steps lo)).

End Payload.

(** * Properties of the harness *)

Section HarnessFacts.

Import Harness.

Local Open Scope Z_scope.

(** ** Substring search *)

Lemma append_String (c : ascii) (s t : string) :
  (String c s ++ t)%string = String c (s ++ t)%string.
Proof. reflexivity. Qed.

Lemma prefix_spec (needle : string) : forall s : string,
  String.prefix needle s = true <-> exists post, s = (needle ++ post)%string.
Proof.
  induction needle as [|a needle IH]; intros s.
  - split; [intros _; now exists s | intros _; now destruct s].
  - destruct s as [|b s]; simpl.
    + split; [discriminate | intros [post H]; discriminate].
    + destruct (Ascii.ascii_dec a b) as [-> | Hne].
      * rewrite IH. split; intros [post H]; exists post;
          rewrite append_String in *; congruence.
      * split; [discriminate|].
        intros [post H]. rewrite append_String in H. congruence.
Qed.

(** [includes] finds exactly the strings that contain the needle. *)
Lemma includes_spec (needle s : string) :
  Js.includes needle s = true <->
  exists pre post, s = (pre ++ needle ++ post)%string.
Proof.
  split.
  - induction s as [|c s IH]; cbn [Js.includes]; rewrite orb_true_iff.
    + intros [H | H]; [|discriminate].
      apply prefix_spec in H as [post H]. now exists ""%string, post.
    + intros [H | H].
      * apply prefix_spec in H as [post H]. now exists ""%string, post.
      * destruct (IH H) as (pre & post & ->). now exists (String c pre), post.
  - intros (pre & post & ->). induction pre as [|c pre IH].
    + assert (H : String.prefix needle (needle ++ post) = true)
        by (apply prefix_spec; now exists post).
      change (""%string ++ (needle ++ post))%string with (needle ++ post)%string.
      destruct (needle ++ post)%string; cbn [Js.includes]; now rewrite H.
    + rewrite append_String. cbn [Js.includes]. rewrite IH. apply orb_true_r.
Qed.

(** ** The payload generator *)

Lemma string_length_append (s t : string) :
  String.length (s ++ t) = (String.length s + String.length t)%nat.
Proof. induction s as [|c s IH]; simpl; [reflexivity | now rewrite IH]. Qed.

Lemma drawn_from_append (alphabet s t : string) :
  drawn_from alphabet (s ++ t) = drawn_from alphabet s && drawn_from alphabet t.
Proof.
  induction s as [|c s IH]; simpl; [reflexivity|].
  rewrite IH. now rewrite andb_assoc.
Qed.

Lemma get_occurs (s : string) : forall (i : nat) (c : ascii),
  String.get i s = Some c -> occurs c s = true.
Proof.
  induction s as [|c' s IH]; intros i c; simpl; [discriminate|].
  destruct i as [|i].
  - intros [= ->]. now rewrite Ascii.eqb_refl.
  - intros H. rewrite (IH _ _ H). apply orb_true_r.
Qed.

Lemma get_in_range (s : string) : forall i : nat,
  (i < String.length s)%nat -> exists c, String.get i s = Some c.
Proof.
  induction s as [|c' s IH]; intros i; simpl; [lia|].
  destruct i as [|i]; [eauto|]. intros H. apply IH. lia.
Qed.

(** Within range [charAt] yields exactly one code unit, and one of [s]. *)
Lemma charAt_in_range (s : string) (i : nat) :
  (i < String.length s)%nat ->
  String.length (Js.charAt s i) = 1%nat /\ drawn_from s (Js.charAt s i) = true.
Proof.
  intros H. unfold Js.charAt.
  destruct (get_in_range s i H) as [c Hc]. rewrite Hc. simpl.
  now rewrite (get_occurs _ _ _ Hc).
Qed.

(** Rounding to 53 bits moves an integer below [2 ^ 60] up by at most 64. *)
Lemma round_significand_bound (M : Z) :
  0 <= M < 2 ^ 60 ->
  let (q, k) := round_significand M in
  0 <= q /\ 0 <= k /\ q * 2 ^ k <= M + 64.
Proof.
  intros [H0 H60]. unfold round_significand.
  set (k := Z.max 0 (Z.log2 M + 1 - 53)).
  assert (Hk : 0 <= k <= 7).
  { subst k. split; [lia|].
    destruct (Z.eq_dec M 0) as [-> | Hne]; [simpl; lia|].
    assert (Z.log2 M < 60) by (apply Z.log2_lt_pow2; lia). lia. }
  assert (Hp : 0 < 2 ^ k) by (apply Z.pow_pos_nonneg; lia).
  assert (Hp7 : 2 ^ k <= 2 ^ 7) by (apply Z.pow_le_mono_r; lia).
  change (2 ^ 7) with 128 in Hp7.
  pose proof (Z.div_mod M (2 ^ k) ltac:(lia)) as Hdm.
  pose proof (Z.mod_pos_bound M (2 ^ k) Hp) as Hr.
  assert (Hq : 0 <= M / 2 ^ k) by (apply Z.div_pos; lia).
  set (q := M / 2 ^ k) in *. set (r := M mod 2 ^ k) in *.
  repeat split; try lia.
  - destruct (2 * r <? 2 ^ k); [lia|].
    destruct (2 ^ k <? 2 * r); [lia|]. destruct (Z.even q); lia.
  - destruct (Z.ltb_spec (2 * r) (2 ^ k)); [nia|].
    destruct (Z.ltb_spec (2 ^ k) (2 * r)); [nia|].
    destruct (Z.even q); nia.
Qed.

(** The index computed from a value of [Math.random()] is a position of
    [chars]. *)
Lemma random_index_in_range (r : double) :
  in_unit_interval r = true ->
  (random_index r < String.length chars)%nat.
Proof.
  unfold in_unit_interval. rewrite !andb_true_iff.
  intros [[[Hm0 Hm53] He] Hmn].
  apply Z.leb_le in Hm0. apply Z.ltb_lt in Hm53, He, Hmn.
  unfold random_index.
  change (Z.of_nat (String.length chars)) with 67.
  change (String.length chars) with 67%nat.
  unfold mul_int.
  pose proof (round_significand_bound (mant r * 67)) as Hb.
  destruct (round_significand (mant r * 67)) as [q k].
  destruct Hb as (Hq & Hk & Hqk); [change (2 ^ 60) with (2 ^ 53 * 128); lia|].
  set (n := - expo r) in *.
  assert (Hn : 0 < n) by lia.
  assert (Hlt : q * 2 ^ k < 67 * 2 ^ n) by lia.
  assert (H2k : 0 < 2 ^ k) by (apply Z.pow_pos_nonneg; lia).
  assert (H2n : 0 < 2 ^ n) by (apply Z.pow_pos_nonneg; lia).
  enough (floor {| mant := q; expo := expo r + k |} < 67) by lia.
  unfold floor; simpl.
  destruct (Z.leb_spec 0 (expo r + k)) as [Hge | Hneg].
  - replace k with (n + (expo r + k)) in Hlt by lia.
    rewrite Z.pow_add_r in Hlt by lia. nia.
  - apply Z.div_lt_upper_bound; [apply Z.pow_pos_nonneg; lia|].
    replace n with (k + (- (expo r + k))) in Hlt by lia.
    rewrite Z.pow_add_r in Hlt by lia. nia.
Qed.

Lemma generate_loop_spec (random : nat -> double) :
  (forall i, in_unit_interval (random i) = true) ->
  forall (remaining calls : nat) (result : string),
    drawn_from chars result = true ->
    String.length (generate_loop random calls remaining result)
      = (String.length result + remaining)%nat /\
    drawn_from chars (generate_loop random calls remaining result) = true.
Proof.
  intros Hrandom. induction remaining as [|n IH]; intros calls result Hres; simpl.
  - split; [lia | assumption].
  - destruct (charAt_in_range chars (random_index (random calls))
                (random_index_in_range _ (Hrandom calls))) as [Hlen Hin].
    destruct (IH (S calls)
                 (result ++ Js.charAt chars (random_index (random calls)))%string)
      as [IHlen IHin].
    + rewrite drawn_from_append, Hres, Hin. reflexivity.
    + split; [|exact IHin].
      rewrite IHlen, string_length_append, Hlen. lia.
Qed.

End HarnessFacts.

Section HarnessClaims.

Import Harness.

(** C9, as amended.  For every sequence of values of [Math.random()] in
    [0, 1) and every non-negative integer [length],
    [generateRandomText(length)] returns a string of exactly [length] code
    units, each drawn from [chars]; the alphabet [chars] has 67 characters.
    The function is total, and the length of its result does not depend on
    the random values. *)
Theorem generateRandomText_length_alphabet (random : nat -> double) :
  (forall i, in_unit_interval (random i) = true) ->
  forall calls length : nat,
    String.length (generateRandomText random calls length) = length /\
    drawn_from chars (generateRandomText random calls length) = true /\
    String.length chars = 67%nat.
Proof.
  intros Hrandom calls length.
  destruct (generate_loop_spec random Hrandom length calls "" eq_refl)
    as [Hlen Hin].
  unfold generateRandomText. repeat split; assumption.
Qed.

Lemma generateRandomText_length_alphabet_witness :
  String.length (generateRandomText always_half 0 5) = 5%nat /\
  drawn_from chars (generateRandomText always_half 0 5) = true /\
  String.length chars = 67%nat.
Proof.
  apply (generateRandomText_length_alphabet always_half).
  intros i. reflexivity.
Defined.

(** C9 as stated fails on the size of the alphabet: [chars] has no 68th
    character. *)
Lemma chars_length_not_68 :
  ~ (String.length chars = 68%nat) /\ Js.charAt chars 67 = "".
Proof. split; [discriminate | reflexivity]. Qed.

(** C8.  The [global.fetch] mock is total and has two outcomes.  For a
    request whose URL contains ["api.smith.langchain"] the promise is
    fulfilled with a Response of status 429 (not 502), statusText
    ["Bad Gateway"] and the JSON body with the one member [error]; the
    adapter reads that answer as a retryable failure.  For every other
    request the call throws, that is, the promise is rejected.  No request
    is ever passed on to the network. *)
Theorem fetch_mock_two_branches (input : fetch_input) :
  network (fetch input) = [] /\
  match request_url input with
  | Some url =>
      if Js.includes "api.smith.langchain" url
      then exists resp,
             promise (fetch input) = Fulfilled resp /\
             status resp = 429%Z /\ status resp <> 502%Z /\
             statusText resp = "Bad Gateway" /\
             body resp = bad_gateway_json /\
             Backpressure.classify (promise (fetch input))
               = Engine.RetryableFailure "Bad Gateway"
      else promise (fetch input) = Rejected (Error "Should never happen")
  | None => promise (fetch input) = Rejected TypeError
  end.
Proof.
  destruct input as [s | s | |]; simpl;
    try (split; reflexivity);
    unfold fetch; simpl; unfold collector_host;
    destruct (Js.includes "api.smith.langchain" s); simpl;
    (split; [reflexivity|]); try reflexivity;
    (exists bad_gateway_response; repeat split; discriminate).
Qed.



(** ** The producer tick *)







(** Fulfilling the derived promises touches neither handlers nor the
    promises they were derived from. *)
Lemma fulfil_derived_lookup (ds : list nat) : forall (heap : list js_promise) (p : nat),
  p ∉ ds ->
  fold_left (fun heap d => alter (set_outcome Resolves) d heap) ds heap !! p
    = heap !! p.
Proof.
  induction ds as [|d ds IH]; intros heap p Hp; [reflexivity|].
  cbn [fold_left]. rewrite IH by (intros H; apply Hp; now right).
  apply list_lookup_alter_ne. intros ->. apply Hp. now left.
Qed.

Lemma fulfil_derived_Forall (P : js_promise -> Prop) (ds : list nat) :
  (forall q, P q -> P (set_outcome Resolves q)) ->
  forall heap : list js_promise,
    Forall P heap ->
    Forall P (fold_left (fun heap d => alter (set_outcome Resolves) d heap) ds heap).
Proof.
  intros HP. induction ds as [|d ds IH]; intros heap Hheap; [exact Hheap|].
  cbn [fold_left]. apply IH, Forall_alter; [exact Hheap|].
  intros q _. apply HP.
Qed.











Lemma process_run_snoc (evs : list process_event) (ev : process_event) :
  process_run (evs ++ [ev]) = process_step (process_run evs) ev.
Proof. unfold process_run. now rewrite fold_left_app. Qed.

(** The ticks alone are a run of the process. *)
Lemma run_ticks_process (rs : list createRun_result) :
  run_ticks rs = process_run (Tick <$> rs).
Proof.
  unfold run_ticks, process_run. generalize producer_start.
  induction rs as [|r rs IH]; intros st; [reflexivity|]. cbn. apply IH.
Qed.



(** What the console of the sample run holds: the one synchronous failure,
    as line 190 prints it. *)
Lemma sample_console :
  console_error (process_run sample_ticks) =
    [newline ++ "!!! Synchronous error creating run: " ++
     "TypeError: Cannot cancel a stream that already has a reader"] /\
  traceCount (process_run sample_ticks) = 2 /\
  error_text (ErrorObject (VString "Error") (VString "")) = "Error" /\
  error_text (ErrorObject VUndefined VUndefined) = "Error" /\
  error_text (ErrorObject (VString "") (VString "no name")) = "no name".
Proof. repeat split. Qed.

End HarnessClaims.

(** * Properties of the engine *)

Section EngineFacts.

Import Engine.

Local Open Scope nat_scope.
Local Open Scope list_scope.

Implicit Types (cfg : Config) (st : State) (e : Entry) (b : Batch).
Implicit Types (buf : list Entry) (bs : list Batch).

(** ** Byte accounting *)


Lemma bytes_cons e buf : bytes (e :: buf) = entry_bytes e + bytes buf.
Proof. reflexivity. Qed.



Lemma bytes_sublist buf1 buf2 : buf1 `sublist_of` buf2 -> bytes buf1 <= bytes buf2.
Proof.
  induction 1 as [|e l1 l2 _ IH|e l1 l2 _ IH]; rewrite ?bytes_cons; simpl; lia.
Qed.


(** ** Displacing the oldest Records *)

Lemma trim_suffix cap fixed buf : trim cap fixed buf `suffix_of` buf.
Proof.
  induction buf as [|e buf IH]; cbn [trim]; [reflexivity|].
  destruct (fixed + bytes (e :: buf) <=? cap); [reflexivity|].
  now apply suffix_cons_r.
Qed.





(** ** Taking a Batch *)

Lemma takeUpTo_spec maxCount : forall maxBytes buf,
  buf = (takeUpTo maxCount maxBytes buf).1 ++ (takeUpTo maxCount maxBytes buf).2 /\
  length (takeUpTo maxCount maxBytes buf).1 <= maxCount /\
  bytes (takeUpTo maxCount maxBytes buf).1 <= maxBytes.
Proof.
  induction maxCount as [|n IH]; intros maxBytes buf.
  - destruct buf; simpl; unfold bytes; simpl; repeat split; lia.
  - destruct buf as [|e buf]; cbn [takeUpTo].
    + unfold bytes; simpl; repeat split; lia.
    + destruct (Nat.leb_spec (entry_bytes e) maxBytes) as [Hle | Hgt].
      * specialize (IH (maxBytes - entry_bytes e) buf).
        destruct (takeUpTo n (maxBytes - entry_bytes e) buf) as [taken remaining].
        cbn [fst snd] in IH |- *. destruct IH as (Heq & Hlen & Hbytes).
        rewrite bytes_cons. cbn [length].
        repeat split; [simpl; congruence | lia | lia].
      * unfold bytes; simpl; repeat split; lia.
Qed.

Lemma takeUpTo_split maxCount maxBytes buf b rest :
  takeUpTo maxCount maxBytes buf = (b, rest) -> buf = b ++ rest.
Proof.
  intros H. pose proof (takeUpTo_spec maxCount maxBytes buf) as (Heq & _).
  now rewrite H in Heq.
Qed.

(** A Batch stops only where the next Record would break a bound. *)
Lemma takeUpTo_maximal maxCount : forall maxBytes buf b rest,
  takeUpTo maxCount maxBytes buf = (b, rest) ->
  match rest with
  | [] => True
  | e :: _ => length b = maxCount \/ maxBytes < bytes b + entry_bytes e
  end.
Proof.
  induction maxCount as [|n IH]; intros maxBytes buf b rest.
  - destruct buf; simpl; intros [= <- <-]; auto.
  - destruct buf as [|e buf]; cbn [takeUpTo]; [intros [= <- <-]; exact I|].
    destruct (Nat.leb_spec (entry_bytes e) maxBytes) as [Hle | Hgt].
    + specialize (IH (maxBytes - entry_bytes e) buf).
      destruct (takeUpTo n (maxBytes - entry_bytes e) buf) as [taken remaining].
      intros [= <- <-]. specialize (IH _ _ eq_refl).
      destruct remaining as [|e' remaining]; [exact I|].
      rewrite bytes_cons. simpl. destruct IH; [left | right]; lia.
    + intros [= <- <-]. right. unfold bytes. simpl. lia.
Qed.



Lemma bytes_nil : bytes [] = 0.
Proof. reflexivity. Qed.

(** ** The byte cap *)

Local Arguments bytes : simpl never.
Local Arguments inflight_bytes : simpl never.
Local Arguments trim : simpl never.









(** The scenario of section 8: 1000 Records of one unit each into a queue
    of 500 units under [dropOldest] leave exactly the newest 500. *)
Lemma scenario_drop_oldest :
  let st := run scenario_cfg (Enqueue <$> unit_records 1 1000) init in
  item <$> buffer st = unit_records 501 500 /\ resident_bytes st = 500.
Proof. vm_compute. split; reflexivity. Qed.

(** ** Which Records the engine holds *)

Lemma requeued_items cfg b :
  item <$> requeued cfg b =
  item <$> filter (fun e => retries e < maxRetriesPerRecord cfg) b.
Proof. unfold requeued. now rewrite <- list_fmap_compose. Qed.

Lemma requeued_sublist cfg b : item <$> requeued cfg b `sublist_of` item <$> b.
Proof. rewrite requeued_items. apply fmap_sublist, sublist_filter. Qed.

Lemma concat_delete_Permutation bs i b :
  bs !! i = Some b -> concat bs ≡ₚ b ++ concat (delete i bs).
Proof.
  intros Hi. rewrite <- (take_drop_middle bs i b Hi) at 1.
  rewrite delete_take_drop, !concat_app. simpl.
  rewrite !(assoc_L (++)). f_equiv. apply Permutation_app_comm.
Qed.

Lemma trim_sublist cap fixed buf : trim cap fixed buf `sublist_of` buf.
Proof.
  destruct (trim_suffix cap fixed buf) as [dropped Hd].
  rewrite Hd at 2. apply sublist_inserts_l. reflexivity.
Qed.

Lemma enqueue_items cfg r st :
  resident_items (enqueue cfg r st).2 ⊆+ resident_items st ++ [r].
Proof.
  unfold enqueue, resident_items, resident.
  destruct (accepting st); simpl; [|apply submseteq_inserts_r; reflexivity].
  destruct (resident_bytes st + size_bytes r <=? maxQueueBytes cfg); simpl.
  - rewrite (assoc_L (++)), fmap_app. reflexivity.
  - destruct (queueFullPolicy cfg); simpl;
      try (apply submseteq_inserts_r; reflexivity).
    destruct (inflight_bytes (inflight st) + size_bytes r <=? maxQueueBytes cfg);
      simpl; [|apply submseteq_inserts_r; reflexivity].
    rewrite (assoc_L (++)), !fmap_app. simpl.
    apply submseteq_skips_r, submseteq_skips_l, sublist_submseteq, fmap_sublist.
    apply trim_sublist.
Qed.

Lemma drain_resident cfg st : resident (drain cfg st) = resident st.
Proof.
  unfold drain, resident.
  destruct (length (inflight st) <? maxDrainConcurrency cfg); [|reflexivity].
  destruct (takeUpTo (maxBatchItems cfg) (maxBatchBytes cfg) (buffer st))
    as [b rest] eqn:Htake.
  apply takeUpTo_split in Htake.
  destruct b as [|e b]; [reflexivity|]. simpl.
  rewrite Htake, concat_app. simpl. rewrite app_nil_r.
  now rewrite <- (assoc_L (++)).
Qed.

Lemma complete_items cfg i o st :
  resident_items (complete cfg i o st) ⊆+ resident_items st.
Proof.
  unfold complete, resident_items, resident.
  destruct (inflight st !! i) as [b|] eqn:Hi; [|reflexivity].
  rewrite (concat_delete_Permutation _ _ _ Hi).
  destruct o as [| reason | reason]; simpl.
  - rewrite !fmap_app. rewrite <- (assoc_L (++)). apply submseteq_inserts_l.
    reflexivity.
  - rewrite !fmap_app.
    rewrite (Permutation_app_comm (item <$> b)), <- (assoc_L (++)).
    apply submseteq_skips_l.
    transitivity (item <$> (requeued cfg b ++ buffer st)).
    + apply sublist_submseteq, fmap_sublist, trim_sublist.
    + rewrite fmap_app.
      apply submseteq_skips_r, sublist_submseteq, requeued_sublist.
  - rewrite !fmap_app. rewrite <- (assoc_L (++)). apply submseteq_inserts_l.
    reflexivity.
Qed.

Lemma step_items cfg st ev :
  resident_items (step cfg st ev) ⊆+ resident_items st ++ enqueued [ev].
Proof.
  destruct ev as [r | | i o | |]; simpl; rewrite ?app_nil_r.
  - apply enqueue_items.
  - unfold resident_items. now rewrite drain_resident.
  - apply complete_items.
  - reflexivity.
  - apply submseteq_nil_l.
Qed.

Lemma enqueued_cons ev evs : enqueued (ev :: evs) = enqueued [ev] ++ enqueued evs.
Proof. unfold enqueued. simpl. now rewrite app_nil_r. Qed.


(** The engine holds no Record it was not given, and none more often than
    it was given. *)
Lemma run_items cfg evs : forall st,
  resident_items (run cfg evs st) ⊆+ resident_items st ++ enqueued evs.
Proof.
  induction evs as [|ev evs IH]; intros st.
  - simpl. rewrite app_nil_r. reflexivity.
  - change (run cfg (ev :: evs) st) with (run cfg evs (step cfg st ev)).
    rewrite enqueued_cons.
    etransitivity; [apply IH|].
    rewrite (assoc_L (++)). apply submseteq_skips_r, step_items.
Qed.

Lemma resident_ids_items st : resident_ids st = rec_id <$> resident_items st.
Proof. unfold resident_ids, resident_items. now rewrite <- list_fmap_compose. Qed.

Lemma run_ids cfg evs st :
  resident_ids (run cfg evs st) ⊆+ resident_ids st ++ (rec_id <$> enqueued evs).
Proof.
  rewrite !resident_ids_items, <- fmap_app. apply fmap_submseteq, run_items.
Qed.

Lemma submseteq_NoDup_inv {A} (l k : list A) : l ⊆+ k -> NoDup k -> NoDup l.
Proof.
  intros Hsub Hk. apply submseteq_Permutation in Hsub as [k' Hk'].
  rewrite Hk' in Hk. now apply NoDup_app in Hk as (? & _ & _).
Qed.

Lemma run_NoDup cfg evs st :
  NoDup (resident_ids st ++ (rec_id <$> enqueued evs)) ->
  NoDup (resident_ids (run cfg evs st)).
Proof. apply submseteq_NoDup_inv, run_ids. Qed.

Lemma elem_of_concat {A} (x : A) (ls : list (list A)) :
  x ∈ concat ls <-> exists l, l ∈ ls /\ x ∈ l.
Proof.
  rewrite list_elem_of_In, in_concat.
  split; intros (l & H1 & H2); exists l; split;
    first [now apply list_elem_of_In | now apply list_elem_of_In in H1
          | now apply list_elem_of_In in H2].
Qed.

Lemma fmap_concat {A B} (f : A -> B) (ls : list (list A)) :
  f <$> concat ls = concat (fmap (M:=list) f <$> ls).
Proof.
  induction ls as [|l ls IH]; [reflexivity|].
  simpl. now rewrite fmap_app, IH.
Qed.

(** Distinct positions of a list of lists with no repeated member share no
    member. *)
Lemma concat_NoDup_lookup {A} (ls : list (list A)) : forall i j l1 l2 x,
  NoDup (concat ls) ->
  ls !! i = Some l1 -> ls !! j = Some l2 -> x ∈ l1 -> x ∈ l2 -> i = j.
Proof.
  induction ls as [|l ls IH]; intros i j l1 l2 x Hnd Hi Hj H1 H2;
    [discriminate|].
  simpl in Hnd. apply NoDup_app in Hnd as (_ & Hdisj & Hnd).
  destruct i as [|i], j as [|j]; simpl in Hi, Hj.
  - reflexivity.
  - injection Hi as <-. exfalso. apply (Hdisj x H1).
    apply elem_of_concat. exists l2. split; [|exact H2].
    eapply list_elem_of_lookup_2, Hj.
  - injection Hj as <-. exfalso. apply (Hdisj x H2).
    apply elem_of_concat. exists l1. split; [|exact H1].
    eapply list_elem_of_lookup_2, Hi.
  - f_equal. eapply IH; eauto.
Qed.

(** C3.  In every state the engine reaches, the Records it holds, over all
    in-flight Batches and the buffer together, are among the Records that
    were enqueued, none held more often than it was enqueued.  So when every
    enqueue call brings a Record with its own identifier, no Record is held
    twice: a Record is a member of at most one in-flight Batch, at most once
    in it, and a Record in flight is not in the buffer, so no later drain
    can claim it again. *)
Theorem record_in_at_most_one_batch cfg evs :
  resident_items (run cfg evs init) ⊆+ enqueued evs /\
  (NoDup (rec_id <$> enqueued evs) ->
   NoDup (resident_ids (run cfg evs init)) /\
   (forall i j b1 b2 id,
      inflight (run cfg evs init) !! i = Some b1 ->
      inflight (run cfg evs init) !! j = Some b2 ->
      id ∈ entry_id <$> b1 -> id ∈ entry_id <$> b2 -> i = j) /\
   (forall i b,
      inflight (run cfg evs init) !! i = Some b ->
      NoDup (entry_id <$> b) /\
      forall id, id ∈ entry_id <$> b ->
                 id ∉ entry_id <$> buffer (run cfg evs init))).
Proof.
  split; [apply (run_items cfg evs init)|].
  intros Hfresh.
  assert (Hnd : NoDup (resident_ids (run cfg evs init)))
    by (apply run_NoDup; exact Hfresh).
  split; [exact Hnd|].
  unfold resident_ids, resident in Hnd. rewrite fmap_app in Hnd.
  apply NoDup_app in Hnd as (Hin & Hdisj & _).
  rewrite fmap_concat in Hin, Hdisj.
  split.
  - intros i j b1 b2 id Hi Hj H1 H2.
    apply (concat_NoDup_lookup _ i j (entry_id <$> b1) (entry_id <$> b2) id Hin);
      try assumption.
    + rewrite list_lookup_fmap, Hi. reflexivity.
    + rewrite list_lookup_fmap, Hj. reflexivity.
  - intros i b Hi.
    assert (Hmem : entry_id <$> b ∈
                     fmap (M:=list) entry_id <$> inflight (run cfg evs init)).
    { apply list_elem_of_fmap. exists b.
      split; [reflexivity|]. eapply list_elem_of_lookup_2, Hi. }
    split.
    + apply list_elem_of_split in Hmem as (l1 & l2 & Hsplit).
      rewrite Hsplit, concat_app in Hin. simpl in Hin.
      apply NoDup_app in Hin as (_ & _ & Hin).
      now apply NoDup_app in Hin as (Hin & _ & _).
    + intros id Hid. apply Hdisj.
      apply elem_of_concat.
      exists (entry_id <$> b). split; [exact Hmem | exact Hid].
Qed.

Lemma record_in_at_most_one_batch_witness :
  NoDup (resident_ids (run (demo_cfg reject) two_in_flight init)) /\
  (forall i j b1 b2 id,
     inflight (run (demo_cfg reject) two_in_flight init) !! i = Some b1 ->
     inflight (run (demo_cfg reject) two_in_flight init) !! j = Some b2 ->
     id ∈ entry_id <$> b1 -> id ∈ entry_id <$> b2 -> i = j) /\
  (forall i b,
     inflight (run (demo_cfg reject) two_in_flight init) !! i = Some b ->
     NoDup (entry_id <$> b) /\
     forall id, id ∈ entry_id <$> b ->
                id ∉ entry_id <$> buffer (run (demo_cfg reject) two_in_flight init)).
Proof.
  apply (proj2 (record_in_at_most_one_batch (demo_cfg reject) two_in_flight)).
  apply (bool_decide_unpack _). vm_compute. exact I.
Defined.

(** ** Retries *)










(** ** Dispatch order *)








(** ** Order of the Records the engine holds *)













End EngineFacts.

(** * Properties of the transport resources *)

Section TransportFacts.

Import Transport.

Local Open Scope nat_scope.
Local Open Scope list_scope.

Implicit Types (a : Adapter) (h : Handle) (op : Op).

Lemma tag_of_insert a l res t res' :
  tag_of (mkAdapter (<[res := t]> (tags a)) l) res' =
  if decide (res = res') then t else tag_of a res'.
Proof.
  unfold tag_of. simpl. rewrite lookup_insert.
  destruct (decide (res = res')); reflexivity.
Qed.

Lemma claim_Some h a a' :
  claim h a = inr a' ->
  tag_of a (resource h) = unclaimed /\
  a' = mkAdapter (<[resource h := in_use (owner h)]> (tags a)) (released a).
Proof.
  unfold claim. destruct (tag_of a (resource h)); [|discriminate..].
  intros [= <-]. split; reflexivity.
Qed.

Lemma finalize_cases h a :
  (tag_of a (resource h) = closed /\ finalize h a = inr a) \/
  (tag_of a (resource h) = in_use (owner h) /\
   finalize h a = inr (mkAdapter (<[resource h := closed]> (tags a))
                                 (released a ++ [resource h]))) \/
  (tag_of a (resource h) <> closed /\
   tag_of a (resource h) <> in_use (owner h) /\
   finalize h a = inl DualOwnershipViolation).
Proof.
  unfold finalize. destruct (tag_of a (resource h)) as [| o |].
  - right; right. repeat split; discriminate.
  - destruct (decide (o = owner h)) as [-> | Hne].
    + right; left. split; reflexivity.
    + right; right. repeat split; [discriminate | congruence].
  - left. split; reflexivity.
Qed.

Lemma exec_held_or_closed h a op :
  held_or_closed h a -> held_or_closed h (exec a op).
Proof.
  unfold held_or_closed, exec. intros Hh.
  destruct op as [h' | h' | h']; unfold apply, cancel, finish.
  - destruct (claim h' a) as [err | a'] eqn:Hc; [exact Hh|].
    apply claim_Some in Hc as [Hun ->]. rewrite tag_of_insert.
    destruct (decide (resource h' = resource h)) as [Heq | _]; [|exact Hh].
    rewrite Heq in Hun. destruct Hh; congruence.
  - destruct (finalize_cases h' a) as [[_ ->] | [[Ht ->] | (_ & _ & ->)]];
      try exact Hh.
    rewrite tag_of_insert.
    destruct (decide (resource h' = resource h)); [now right | exact Hh].
  - destruct (finalize_cases h' a) as [[_ ->] | [[Ht ->] | (_ & _ & ->)]];
      try exact Hh.
    rewrite tag_of_insert.
    destruct (decide (resource h' = resource h)); [now right | exact Hh].
Qed.

Lemma run_held_or_closed h ops : forall a,
  held_or_closed h a -> held_or_closed h (run ops a).
Proof.
  induction ops as [|op ops IH]; intros a Ha; [exact Ha|].
  apply IH, exec_held_or_closed, Ha.
Qed.

Lemma finalize_released_once h a a' :
  finalize h a = inr a' -> released_once a -> released_once a'.
Proof.
  intros Hf [Hnd Hcl].
  destruct (finalize_cases h a) as [[_ Heq] | [[Ht Heq] | (_ & _ & Heq)]];
    rewrite Heq in Hf; [injection Hf as <-; now split | | discriminate].
  injection Hf as <-. split; simpl.
  - apply NoDup_app. split; [exact Hnd|]. split; [|apply NoDup_singleton].
    intros res Hres Hin. apply list_elem_of_singleton in Hin as ->.
    rewrite (Hcl _ Hres) in Ht. discriminate.
  - intros res Hres. rewrite tag_of_insert.
    destruct (decide (resource h = res)); [reflexivity|].
    apply elem_of_app in Hres as [Hres | Hres]; [now apply Hcl|].
    apply list_elem_of_singleton in Hres. congruence.
Qed.

Lemma exec_released_once a op : released_once a -> released_once (exec a op).
Proof.
  unfold exec. intros Ha.
  destruct op as [h | h | h]; unfold apply, cancel, finish.
  - destruct (claim h a) as [err | a'] eqn:Hc; [exact Ha|].
    apply claim_Some in Hc as [Hun ->]. destruct Ha as [Hnd Hcl].
    split; [exact Hnd|]. simpl. intros res Hres. rewrite tag_of_insert.
    destruct (decide (resource h = res)) as [<- | _]; [|now apply Hcl].
    rewrite (Hcl _ Hres) in Hun. discriminate.
  - destruct (finalize h a) as [err | a'] eqn:Hf; [exact Ha|].
    eapply finalize_released_once; eauto.
  - destruct (finalize h a) as [err | a'] eqn:Hf; [exact Ha|].
    eapply finalize_released_once; eauto.
Qed.

Lemma run_released_once ops : forall a,
  released_once a -> released_once (run ops a).
Proof.
  induction ops as [|op ops IH]; intros a Ha; [exact Ha|].
  apply IH, exec_released_once, Ha.
Qed.

(** C2.  A handle obtained by claiming a resource can be cancelled at any
    later moment, whatever happened to the resource in between (its send
    completed, it was cancelled before, other operations tried to take it):
    [cancel] returns without an error, and a second [cancel] returns the
    adapter unchanged.  Over any sequence of operations no resource is
    released twice.  This rests on the state tag: finalizing a closed
    resource is a no-op, finalizing one that is in use by another owner is
    the error [DualOwnershipViolation]. *)
Theorem cancel_safe_idempotent :
  (forall a h a1 ops,
     claim h a = inr a1 ->
     exists a2, cancel h (run ops a1) = inr a2 /\ cancel h a2 = inr a2) /\
  (forall a h a', finish h a = inr a' -> cancel h a' = inr a') /\
  (forall ops, NoDup (released (run ops fresh))) /\
  (forall a h, tag_of a (resource h) = closed -> cancel h a = inr a) /\
  (forall a h o,
     tag_of a (resource h) = in_use o -> o <> owner h ->
     cancel h a = inl DualOwnershipViolation /\
     finish h a = inl DualOwnershipViolation).
Proof.
  assert (Hclosed : forall a h, tag_of a (resource h) = closed ->
                                cancel h a = inr a).
  { intros a h Ht. unfold cancel, finalize. now rewrite Ht. }
  assert (Hafter : forall a h a', finalize h a = inr a' ->
                                  tag_of a' (resource h) = closed).
  { intros a h a' Hf.
    destruct (finalize_cases h a) as [[Ht Heq] | [[Ht Heq] | (_ & _ & Heq)]];
      rewrite Heq in Hf; [congruence | | discriminate].
    injection Hf as <-. rewrite tag_of_insert.
    destruct (decide (resource h = resource h)); congruence. }
  split; [|split; [|split; [|split]]].
  - intros a h a1 ops Hc. apply claim_Some in Hc as [_ ->].
    assert (Hh : held_or_closed h (run ops
                   (mkAdapter (<[resource h := in_use (owner h)]> (tags a))
                              (released a)))).
    { apply run_held_or_closed. left. rewrite tag_of_insert.
      destruct (decide (resource h = resource h)); congruence. }
    unfold cancel.
    destruct (finalize_cases h (run ops
                (mkAdapter (<[resource h := in_use (owner h)]> (tags a))
                           (released a))))
      as [[Ht Heq] | [[Ht Heq] | (Hn1 & Hn2 & _)]].
    + eexists. split; [exact Heq|]. now apply Hclosed.
    + eexists. split; [exact Heq|]. apply Hclosed. now apply (Hafter _ _ _ Heq).
    + destruct Hh; contradiction.
  - intros a h a' Hf. apply Hclosed. now apply (Hafter a h a').
  - intros ops. apply (run_released_once ops fresh).
    split; [constructor | intros res Hres; inversion Hres].
  - exact Hclosed.
  - intros a h o Ht Hne. unfold cancel, finish, finalize. rewrite Ht.
    destruct (decide (o = owner h)); [contradiction | split; reflexivity].
Qed.

Lemma cancel_safe_idempotent_witness :
  exists a2,
    cancel first_owner
      (run after_completion
         (mkAdapter {[ 7 := in_use 1 ]} [])) = inr a2 /\
    cancel first_owner a2 = inr a2.
Proof.
  apply (proj1 cancel_safe_idempotent fresh first_owner
           (mkAdapter {[ 7 := in_use 1 ]} []) after_completion).
  reflexivity.
Defined.

End TransportFacts.

(** * Further properties of the harness *)

Section ReportingFacts.

Import Harness Reporting.

Local Open Scope N_scope.

(** ** Decimal digits *)

Lemma string_append_assoc (s t u : string) :
  ((s ++ t) ++ u)%string = (s ++ (t ++ u))%string.
Proof.
  induction s as [|c s IH]; [reflexivity|].
  rewrite !append_String, IH. reflexivity.
Qed.

Lemma string_append_nil_r (s : string) : (s ++ "")%string = s.
Proof.
  induction s as [|c s IH]; [reflexivity|]. now rewrite append_String, IH.
Qed.

Lemma log2_div10 (n : N) : 10 <= n -> N.log2 (n / 10) < N.log2 n.
Proof.
  intros Hn.
  assert (Hhalf : n / 10 <= n / 2)
    by (apply N.div_le_compat_l; lia).
  apply N.log2_le_mono in Hhalf.
  assert (Hlog : N.log2 (n / 2) = N.log2 n - 1).
  { replace (n / 2) with (N.shiftr n 1)
      by (rewrite N.shiftr_div_pow2; reflexivity).
    apply N.log2_shiftr. }
  assert (3 <= N.log2 n) by (apply (N.log2_le_mono 8 n); lia).
  lia.
Qed.

Lemma digits_of_irrel (f1 : nat) : forall (f2 : nat) (n : N),
  (N.to_nat (N.log2 n) < f1)%nat -> (N.to_nat (N.log2 n) < f2)%nat ->
  digits_of f1 n = digits_of f2 n.
Proof.
  induction f1 as [|f1 IH]; intros f2 n H1 H2; [lia|].
  destruct f2 as [|f2]; [lia|]. cbn [digits_of].
  destruct (N.ltb_spec n 10) as [Hlt | Hge]; [reflexivity|].
  pose proof (log2_div10 n Hge).
  rewrite (IH f2 (n / 10)); [reflexivity | lia | lia].
Qed.

(** The digits of [n]: one digit below ten, otherwise the digits of
    [n / 10] followed by the last digit. *)
Lemma decimal_unfold (n : N) :
  decimal n =
  if n <? 10 then digit n else (decimal (n / 10) ++ digit (n mod 10))%string.
Proof.
  unfold decimal at 1. cbn [digits_of].
  destruct (N.ltb_spec n 10) as [Hlt | Hge]; [reflexivity|].
  pose proof (log2_div10 n Hge). unfold decimal.
  rewrite (digits_of_irrel (N.to_nat (N.log2 n))
             (S (N.to_nat (N.log2 (n / 10)))) (n / 10)); [reflexivity | lia | lia].
Qed.

Lemma digit_value_digit (d : N) : d < 10 -> digit_value (ascii_of_N (48 + d)) = d.
Proof.
  intros Hd. unfold digit_value. rewrite N_ascii_embedding; lia.
Qed.

Lemma parse_digits_append (s t : string) : forall acc,
  parse_digits acc (s ++ t) = parse_digits (parse_digits acc s) t.
Proof.
  induction s as [|c s IH]; intros acc; [reflexivity|].
  rewrite append_String. cbn [parse_digits]. apply IH.
Qed.

(** Reading the digits of a number gives the number back. *)
Lemma parse_decimal_decimal (n : N) : parse_decimal (decimal n) = n.
Proof.
  induction n as [n IH] using (well_founded_induction N.lt_wf_0).
  rewrite decimal_unfold. destruct (N.ltb_spec n 10) as [Hlt | Hge].
  - unfold parse_decimal, digit. cbn [parse_digits].
    rewrite digit_value_digit by exact Hlt. lia.
  - unfold parse_decimal in *. rewrite parse_digits_append, IH.
    + unfold digit. cbn [parse_digits].
      rewrite digit_value_digit by (apply N.mod_lt; lia).
      pose proof (N.div_mod n 10 ltac:(lia)). lia.
    + apply N.div_lt; lia.
Qed.

Lemma decimal_inj (a b : N) : decimal a = decimal b -> a = b.
Proof.
  intros H. rewrite <- (parse_decimal_decimal a), <- (parse_decimal_decimal b).
  now rewrite H.
Qed.

Lemma digit_length (d : N) : String.length (digit d) = 1%nat.
Proof. reflexivity. Qed.

Lemma decimal_length_pos (n : N) : (1 <= String.length (decimal n))%nat.
Proof.
  rewrite decimal_unfold. destruct (n <? 10); [simpl; lia|].
  rewrite string_length_append, digit_length. lia.
Qed.

(** ** [toFixed] and [formatBytes] *)

Lemma substring_append_l (s t : string) :
  substring 0 (String.length s) (s ++ t) = s.
Proof.
  induction s as [|c s IH].
  - destruct t; reflexivity.
  - rewrite append_String. cbn [String.length substring]. now rewrite IH.
Qed.

Lemma substring_all (t : string) : substring 0 (String.length t) t = t.
Proof.
  rewrite <- (string_append_nil_r t) at 2. apply substring_append_l.
Qed.

Lemma substring_append_r (s t : string) :
  substring (String.length s) (String.length t) (s ++ t) = t.
Proof.
  induction s as [|c s IH].
  - apply substring_all.
  - rewrite append_String. cbn [String.length substring]. exact IH.
Qed.

(** The text [toFixed(2)] makes of the integer [n] of hundredths: the digits
    of [n / 100], the point, and the two last digits of [n]. *)
Lemma toFixed_2_hundredths (negative : bool) (num den : N) :
  let n := (2 * num * 100 + den) / (2 * den) in
  toFixed 2 negative num den =
  ((if negative then "-" else "") ++
   decimal (n / 100) ++ "." ++ digit (n / 10 mod 10) ++ digit (n mod 10))%string.
Proof.
  intros n. unfold toFixed.
  change (10 ^ N.of_nat 2) with 100. fold n.
  f_equal.
  destruct (N.ltb_spec n 10) as [H10 | H10].
  - (* one digit: padded with two zeros *)
    rewrite (decimal_unfold n). destruct (N.ltb_spec n 10); [|lia].
    rewrite (N.div_small n 100), (N.div_small n 10), (N.mod_small n 10) by lia.
    reflexivity.
  - rewrite (decimal_unfold n). destruct (N.ltb_spec n 10); [lia|].
    destruct (N.ltb_spec n 100) as [H100 | H100].
    + (* two digits: padded with one zero *)
      rewrite (decimal_unfold (n / 10)).
      assert (Hq : n / 10 < 10) by (apply N.Div0.div_lt_upper_bound; lia).
      destruct (N.ltb_spec (n / 10) 10); [|lia].
      rewrite (N.div_small n 100), (N.mod_small (n / 10) 10) by lia.
      reflexivity.
    + (* three digits or more: no padding *)
      rewrite (decimal_unfold (n / 10)).
      assert (Hq : 10 <= n / 10) by (apply N.div_le_lower_bound; lia).
      destruct (N.ltb_spec (n / 10) 10); [lia|].
      rewrite N.Div0.div_div. change (10 * 10) with 100.
      set (p := decimal (n / 100)).
      set (tail := (digit (n / 10 mod 10) ++ digit (n mod 10))%string).
      rewrite string_append_assoc. fold tail.
      assert (Hlen : String.length (p ++ tail) = (String.length p + 2)%nat)
        by (rewrite string_length_append; reflexivity).
      pose proof (decimal_length_pos (n / 100)) as Hp. fold p in Hp.
      rewrite Hlen.
      destruct (Nat.leb_spec (String.length p + 2) 2); [lia|].
      rewrite Hlen.
      replace (String.length p + 2 - 2)%nat with (String.length p) by lia.
      rewrite substring_append_l.
      change 2%nat with (String.length tail) at 1.
      rewrite substring_append_r. reflexivity.
Qed.

(** X1.  For a byte count that a double holds exactly, [formatBytes] prints
    the sign, the size in units of 2^20 bytes rounded to the nearest
    hundredth (a tie goes away from zero) with exactly two digits after the
    point, and [" MB"]: the printed hundredths [h] are within half a
    hundredth of the size. *)
Theorem formatBytes_nearest_hundredth (bytes : Z) :
  (Z.abs bytes < 2 ^ 53)%Z ->
  formatBytes bytes =
    ((if (bytes <? 0)%Z then "-" else "") ++
     decimal (hundredths bytes / 100) ++ "." ++
     digit (hundredths bytes / 10 mod 10) ++ digit (hundredths bytes mod 10) ++
     " MB")%string /\
  (- 2 ^ 19 < Z.of_N (hundredths bytes) * 2 ^ 20 - 100 * Z.abs bytes <= 2 ^ 19)%Z.
Proof.
  intros _. split.
  - unfold formatBytes. rewrite toFixed_2_hundredths.
    change ((2 * Z.to_N (Z.abs bytes) * 100 + 2 ^ 20) / (2 * 2 ^ 20))
      with (hundredths bytes).
    rewrite !string_append_assoc. reflexivity.
  - unfold hundredths.
    set (a := Z.to_N (Z.abs bytes)).
    assert (Ha : Z.abs bytes = Z.of_N a) by (subst a; lia).
    rewrite Ha.
    pose proof (N.div_mod (2 * a * 100 + 2 ^ 20) (2 ^ 21) ltac:(discriminate))
      as Hdm.
    pose proof (N.mod_lt (2 * a * 100 + 2 ^ 20) (2 ^ 21) ltac:(discriminate))
      as Hlt.
    set (h := (2 * a * 100 + 2 ^ 20) / 2 ^ 21) in *.
    set (r := (2 * a * 100 + 2 ^ 20) mod 2 ^ 21) in *.
    change (2 ^ 21) with 2097152 in *. change (2 ^ 20) with 1048576 in *.
    change (2 ^ 19)%Z with 524288%Z. change (2 ^ 20)%Z with 1048576%Z.
    lia.
Qed.

Lemma formatBytes_nearest_hundredth_witness :
  formatBytes 131072 =
    ((if (131072 <? 0)%Z then "-" else "") ++
     decimal (hundredths 131072 / 100) ++ "." ++
     digit (hundredths 131072 / 10 mod 10) ++ digit (hundredths 131072 mod 10) ++
     " MB")%string /\
  (- 2 ^ 19 < Z.of_N (hundredths 131072) * 2 ^ 20 - 100 * Z.abs 131072
     <= 2 ^ 19)%Z.
Proof.
  apply (formatBytes_nearest_hundredth 131072). reflexivity.
Defined.

(** X2.  A negative byte count is printed as the minus sign followed by the
    text of its absolute value, also when that rounds to zero.  So when the
    heap has shrunk since the start, the monitor's heap line shows the
    growth as ["(+-"], the shrinkage and [")"]. *)
Theorem monitor_shrinking_heap (initial current : MemoryUsage) :
  (0 <= heapUsed current < heapUsed initial)%Z ->
  (heapUsed initial < 2 ^ 53)%Z ->
  formatBytes (heapUsed current - heapUsed initial) =
    ("-" ++ formatBytes (heapUsed initial - heapUsed current))%string /\
  monitor_heap_line initial current =
    ("  Heap Used: " ++ formatBytes (heapUsed current) ++ " (+-" ++
     formatBytes (heapUsed initial - heapUsed current) ++ ")")%string.
Proof.
  intros Hcur _.
  assert (Hneg : formatBytes (heapUsed current - heapUsed initial) =
                 ("-" ++ formatBytes (heapUsed initial - heapUsed current))%string).
  { unfold formatBytes, toFixed.
    destruct (Z.ltb_spec (heapUsed current - heapUsed initial) 0); [|lia].
    destruct (Z.ltb_spec (heapUsed initial - heapUsed current) 0); [lia|].
    replace (Z.abs (heapUsed current - heapUsed initial))
      with (Z.abs (heapUsed initial - heapUsed current)) by lia.
    reflexivity. }
  split; [exact Hneg|].
  unfold monitor_heap_line. rewrite Hneg. reflexivity.
Qed.

Lemma monitor_shrinking_heap_witness :
  formatBytes (heapUsed (mkMemoryUsage 0 0 39999000 0)
               - heapUsed (mkMemoryUsage 0 0 40000000 0)) =
    ("-" ++ formatBytes (heapUsed (mkMemoryUsage 0 0 40000000 0)
                         - heapUsed (mkMemoryUsage 0 0 39999000 0)))%string /\
  monitor_heap_line (mkMemoryUsage 0 0 40000000 0)
                    (mkMemoryUsage 0 0 39999000 0) =
    ("  Heap Used: " ++ formatBytes (heapUsed (mkMemoryUsage 0 0 39999000 0))
     ++ " (+-" ++
     formatBytes (heapUsed (mkMemoryUsage 0 0 40000000 0)
                  - heapUsed (mkMemoryUsage 0 0 39999000 0)) ++ ")")%string.
Proof.
  apply (monitor_shrinking_heap (mkMemoryUsage 0 0 40000000 0)
                                (mkMemoryUsage 0 0 39999000 0)).
  - simpl. lia.
  - reflexivity.
Defined.

(** X10.  The heap growth the final report prints and the verdict agree
    except at the threshold.  A growth that prints as less than 50.00 MB gets
    the normal verdict and one that prints as more than 50.00 MB the leak
    verdict; a negative growth is always normal.  A printed ["50.00 MB"]
    decides nothing: the two sample runs print the same line and get
    different verdicts. *)
Theorem report_and_verdict (st : final_state) :
  (Z.abs (heapGrowth st) < 2 ^ 53)%Z ->
  ((0 <= heapGrowth st)%Z -> hundredths (heapGrowth st) < 5000 ->
   verdict st = normal_line) /\
  ((0 <= heapGrowth st)%Z -> 5000 < hundredths (heapGrowth st) ->
   verdict st = leak_line) /\
  ((heapGrowth st < 0)%Z -> verdict st = normal_line) /\
  (report_heap_growth_line quiet_run = report_heap_growth_line leaking_run /\
   verdict quiet_run <> verdict leaking_run).
Proof.
  intros _. unfold verdict, hundredths.
  change (50 * 1024 * 1024)%Z with 52428800%Z.
  set (g := heapGrowth st).
  set (a := Z.to_N (Z.abs g)).
  pose proof (N.div_mod (2 * a * 100 + 2 ^ 20) (2 ^ 21) ltac:(discriminate))
    as Hdm.
  pose proof (N.mod_lt (2 * a * 100 + 2 ^ 20) (2 ^ 21) ltac:(discriminate))
    as Hlt.
  set (h := (2 * a * 100 + 2 ^ 20) / 2 ^ 21) in *.
  set (r := (2 * a * 100 + 2 ^ 20) mod 2 ^ 21) in *.
  change (2 ^ 21) with 2097152 in *. change (2 ^ 20) with 1048576 in *.
  split; [|split; [|split; [|split]]].
  - intros Hg Hh. destruct (Z.ltb_spec 52428800 g); [|reflexivity].
    assert (52428800 < a) by (subst a; lia). lia.
  - intros Hg Hh. destruct (Z.ltb_spec 52428800 g); [reflexivity|].
    assert (a <= 52428800) by (subst a; lia). lia.
  - intros Hg. destruct (Z.ltb_spec 52428800 g); [lia | reflexivity].
  - reflexivity.
  - discriminate.
Qed.

Lemma report_and_verdict_witness :
  verdict (mkFinalState (mkMemoryUsage 0 0 40000000 0)
                        (mkMemoryUsage 0 0 100000000 0)
                        (mkMemoryUsage 0 0 0 0) 0 0) = leak_line.
Proof.
  apply (proj1 (proj2 (report_and_verdict
           (mkFinalState (mkMemoryUsage 0 0 40000000 0)
                         (mkMemoryUsage 0 0 100000000 0)
                         (mkMemoryUsage 0 0 0 0) 0 0) ltac:(reflexivity)))).
  - discriminate.
  - reflexivity.
Defined.

End ReportingFacts.

Section RandomFacts.

Import Harness.

Local Open Scope Z_scope.

(** ** Random indices *)

(** Rounding to 53 bits moves a non-negative integer up by at most
    [2 ^ -53] of itself. *)
Lemma round_significand_relative (M : Z) :
  0 <= M ->
  let (q, k) := round_significand M in
  0 <= q /\ 0 <= k /\ (q * 2 ^ k - M) * 2 ^ 53 <= M.
Proof.
  intros H0. unfold round_significand.
  set (k := Z.max 0 (Z.log2 M + 1 - 53)).
  assert (Hk : 0 <= k) by (subst k; lia).
  assert (Hp : 0 < 2 ^ k) by (apply Z.pow_pos_nonneg; lia).
  pose proof (Z.div_mod M (2 ^ k) ltac:(lia)) as Hdm.
  pose proof (Z.mod_pos_bound M (2 ^ k) Hp) as Hr.
  assert (Hq : 0 <= M / 2 ^ k) by (apply Z.div_pos; lia).
  assert (Hhalf : 2 ^ k * 2 ^ 53 <= 2 * M \/ k = 0).
  { destruct (Z.eq_dec k 0) as [Hz | Hnz]; [now right | left].
    assert (Hpos : 0 < M).
    { destruct (Z.eq_dec M 0) as [-> | ?]; [subst k; simpl in Hnz; lia | lia]. }
    assert (Hkeq : k = Z.log2 M - 52) by (subst k; lia).
    pose proof (Z.log2_spec M Hpos) as [Hlog _].
    replace (2 ^ k * 2 ^ 53) with (2 * 2 ^ Z.log2 M); [lia|].
    rewrite <- Z.pow_add_r by lia. rewrite <- Z.pow_succ_r by lia.
    f_equal. lia. }
  set (q := M / 2 ^ k) in *. set (r := M mod 2 ^ k) in *.
  split; [|split; [exact Hk|]].
  - destruct (2 * r <? 2 ^ k); [lia|].
    destruct (2 ^ k <? 2 * r); [lia|]. destruct (Z.even q); lia.
  - destruct Hhalf as [Hhalf | Hz].
    + destruct (Z.ltb_spec (2 * r) (2 ^ k)); [nia|].
      destruct (Z.ltb_spec (2 ^ k) (2 * r)); [nia|].
      destruct (Z.even q); nia.
    + rewrite Hz in *. change (2 ^ 0) with 1 in *.
      assert (r = 0) by lia.
      destruct (Z.ltb_spec (2 * r) 1); [nia | lia].
Qed.

(** The product of a value of [Math.random()] and a positive integer,
    rounded and floored, stays below the integer. *)
Lemma floor_mul_int_bounds (r : double) (n : Z) :
  in_unit_interval r = true -> 0 < n -> 0 <= floor (mul_int r n) < n.
Proof.
  unfold in_unit_interval. rewrite !andb_true_iff.
  intros [[[Hm0 Hm53] He] Hmn] Hn.
  apply Z.leb_le in Hm0. apply Z.ltb_lt in Hm53, He, Hmn.
  unfold mul_int.
  pose proof (round_significand_relative (mant r * n) ltac:(nia)) as Hb.
  destruct (round_significand (mant r * n)) as [q k].
  destruct Hb as (Hq & Hk & Hqk).
  set (e := - expo r) in *.
  assert (He' : 0 < e) by lia.
  assert (H2k : 0 < 2 ^ k) by (apply Z.pow_pos_nonneg; lia).
  assert (H2e : 0 < 2 ^ e) by (apply Z.pow_pos_nonneg; lia).
  assert (H53 : 0 < 2 ^ 53) by reflexivity.
  assert (Hlt : q * 2 ^ k < n * 2 ^ e) by nia.
  unfold floor; simpl.
  destruct (Z.leb_spec 0 (expo r + k)) as [Hge | Hneg].
  - assert (0 < 2 ^ (expo r + k)) by (apply Z.pow_pos_nonneg; lia).
    replace k with (e + (expo r + k)) in Hlt by lia.
    rewrite Z.pow_add_r in Hlt by lia. nia.
  - assert (0 < 2 ^ (- (expo r + k))) by (apply Z.pow_pos_nonneg; lia).
    split; [apply Z.div_pos; lia|].
    apply Z.div_lt_upper_bound; [lia|].
    replace e with (k + (- (expo r + k))) in Hlt by lia.
    rewrite Z.pow_add_r in Hlt by lia. nia.
Qed.


(** X3.  For every positive integer [n] that a double holds exactly and
    every value [r] of [Math.random()], [Math.floor(r * n)] is an integer
    from 0 to [n - 1]: rounding the product never reaches [n].  This is the
    index into [chars] at line 110 and [tokens_used] at line 147. *)
Theorem floor_random_times_in_range (r : double) (n : Z) :
  in_unit_interval r = true ->
  0 < n <= 2 ^ 53 ->
  0 <= floor (mul_int r n) < n.
Proof. intros Hr [Hn _]. now apply floor_mul_int_bounds. Qed.

Lemma floor_random_times_in_range_witness :
  0 <= floor (mul_int (mkDouble (2 ^ 53 - 1) (-53)) 10000) < 10000.
Proof.
  apply (floor_random_times_in_range (mkDouble (2 ^ 53 - 1) (-53)) 10000).
  - reflexivity.
  - split; [reflexivity | discriminate].
Defined.

(** X4.  Every character of [chars] can be drawn: for each position of the
    alphabet there is a value of [Math.random()] whose index is that
    position. *)
Theorem random_index_onto (i : nat) :
  (i < String.length chars)%nat ->
  exists r, in_unit_interval r = true /\ random_index r = i.
Proof.
  intros Hi. exists (Payload.middle_of i).
  assert (Hall : forallb (fun j => in_unit_interval (Payload.middle_of j) &&
                                   Nat.eqb (random_index (Payload.middle_of j)) j)
                         (seq 0 67) = true) by (vm_compute; reflexivity).
  rewrite forallb_forall in Hall.
  specialize (Hall i). rewrite andb_true_iff, Nat.eqb_eq in Hall.
  apply Hall. apply in_seq. change (String.length chars) with 67%nat in Hi. lia.
Qed.

Lemma random_index_onto_witness :
  exists r, in_unit_interval r = true /\ random_index r = 66%nat.
Proof.
  apply (random_index_onto 66). vm_compute. lia.
Defined.

(** ** The text generator, character by character *)

Lemma generate_loop_append (random : nat -> double) : forall remaining calls result,
  generate_loop random calls remaining result =
  (result ++ generate_loop random calls remaining "")%string.
Proof.
  induction remaining as [|n IH]; intros calls result; cbn [generate_loop].
  - now rewrite string_append_nil_r.
  - rewrite (IH (S calls) (result ++ _)%string).
    rewrite (IH (S calls) ("" ++ _)%string).
    rewrite string_append_assoc. reflexivity.
Qed.

Lemma generateRandomText_S (random : nat -> double) (calls n : nat) :
  generateRandomText random calls (S n) =
  (Js.charAt chars (random_index (random calls)) ++
   generateRandomText random (S calls) n)%string.
Proof.
  unfold generateRandomText. cbn [generate_loop].
  rewrite generate_loop_append. reflexivity.
Qed.

(** X5.  A text of [a + b] characters is the text of [a] characters
    followed by the text of [b] characters drawn from the next random
    values; a text of length 0 is empty.  Asking for a longer text only
    extends the shorter one. *)
Theorem generateRandomText_add (random : nat -> double) (calls a b : nat) :
  generateRandomText random calls 0 = ""%string /\
  generateRandomText random calls (a + b) =
    (generateRandomText random calls a ++
     generateRandomText random (calls + a) b)%string.
Proof.
  split; [reflexivity|].
  revert calls. induction a as [|a IH]; intros calls.
  - rewrite Nat.add_0_r. reflexivity.
  - cbn [Nat.add]. rewrite !generateRandomText_S, IH, string_append_assoc.
    replace (S calls + a)%nat with (calls + S a)%nat by lia. reflexivity.
Qed.

(** X6.  When [Math.random()] stays in [0, 1), the [i]-th character of the
    generated text is the character of [chars] at the index computed from
    the [i]-th random value drawn: the text is determined, position by
    position, by the random values. *)
Theorem generateRandomText_get (random : nat -> double) :
  (forall k, in_unit_interval (random k) = true) ->
  forall calls n i : nat,
    (i < n)%nat ->
    String.get i (generateRandomText random calls n) =
    String.get (random_index (random (calls + i)%nat)) chars.
Proof.
  intros Hrandom calls n. revert calls.
  induction n as [|n IH]; intros calls i Hi; [lia|].
  rewrite generateRandomText_S. unfold Js.charAt.
  destruct (get_in_range chars (random_index (random calls))
              (random_index_in_range _ (Hrandom calls))) as [c Hc].
  rewrite Hc, append_String.
  change (""%string ++ generateRandomText random (S calls) n)%string
    with (generateRandomText random (S calls) n).
  destruct i as [|i]; cbn [String.get].
  - rewrite Nat.add_0_r. now rewrite Hc.
  - rewrite (IH (S calls) i) by lia.
    replace (S calls + i)%nat with (calls + S i)%nat by lia. reflexivity.
Qed.

Lemma generateRandomText_get_witness :
  String.get 2 (generateRandomText always_half 0 5) =
  String.get (random_index (always_half (0 + 2)%nat)) chars.
Proof.
  apply (generateRandomText_get always_half); [intros k; reflexivity | lia].
Defined.

End RandomFacts.

Section CallFacts.

Import Harness Reporting Payload.

Local Open Scope string_scope.

(** ** The fetch mock and substrings *)

(** X7.  The fetch mock answers (with its 429) exactly the inputs whose URL
    text contains ["api.smith.langchain"] somewhere, be it in the host, the
    path or the query; a string and a request object with the same URL are
    treated alike.  For a URL without that text it logs one line naming the
    URL and rejects with ["Should never happen"]. *)
Theorem fetch_answers_by_substring (input : fetch_input) :
  ((exists resp, promise (fetch input) = Fulfilled resp) <->
   (exists pre post,
      request_url input = Some (pre ++ "api.smith.langchain" ++ post))) /\
  (forall url,
     request_url input = Some url ->
     ~ (exists pre post, url = pre ++ "api.smith.langchain" ++ post) ->
     logged (fetch input) = ["Unexpected fetch call: " ++ url] /\
     promise (fetch input) = Rejected (Error "Should never happen")) /\
  (forall url, fetch (InputString url) = fetch (InputRequest url)).
Proof.
  split; [|split].
  - destruct input as [s | s | |]; simpl.
    1,2: unfold fetch; simpl; unfold collector_host;
         destruct (Js.includes "api.smith.langchain" s) eqn:Hinc; simpl;
         split;
         [ intros _; apply includes_spec in Hinc as (pre & post & ->);
           now exists pre, post
         | intros _; eexists; reflexivity
         | intros [resp H]; discriminate
         | intros (pre & post & [= ->]);
           assert (Js.includes "api.smith.langchain"
                     (pre ++ "api.smith.langchain" ++ post) = true)
             by (apply includes_spec; now exists pre, post);
           congruence ].
    all: split; [intros [resp H]; discriminate | intros (pre & post & H); discriminate].
  - intros url Hurl Hno.
    assert (Hinc : Js.includes "api.smith.langchain" url = false).
    { destruct (Js.includes "api.smith.langchain" url) eqn:Hinc; [|reflexivity].
      exfalso. apply Hno. now apply includes_spec. }
    destruct input as [s | s | |]; simpl in Hurl; try discriminate;
      injection Hurl as ->; unfold fetch; simpl; unfold collector_host;
      rewrite Hinc; split; reflexivity.
  - reflexivity.
Qed.

Lemma fetch_answers_by_substring_witness :
  logged (fetch (InputString "https://example.com/runs"))
    = ["Unexpected fetch call: " ++ "https://example.com/runs"] /\
  promise (fetch (InputString "https://example.com/runs"))
    = Rejected (Error "Should never happen").
Proof.
  apply (proj1 (proj2 (fetch_answers_by_substring
                         (InputString "https://example.com/runs")))).
  - reflexivity.
  - intros Hex. apply includes_spec in Hex. discriminate Hex.
Defined.

(** ** The runs the ticks create *)

Lemma run_name_inj (a b : nat) : run_name a = run_name b -> a = b.
Proof.
  unfold run_name. intros H.
  assert (Hd : decimal (N.of_nat a) = decimal (N.of_nat b)).
  { change ("test-run-" ++ decimal (N.of_nat a))
      with (String "t" (String "e" (String "s" (String "t" (String "-"
             (String "r" (String "u" (String "n" (String "-"
                (decimal (N.of_nat a))))))))))) in H.
    change ("test-run-" ++ decimal (N.of_nat b))
      with (String "t" (String "e" (String "s" (String "t" (String "-"
             (String "r" (String "u" (String "n" (String "-"
                (decimal (N.of_nat b))))))))))) in H.
    now injection H. }
  apply decimal_inj in Hd. lia.
Qed.

Lemma traceCount_tick_le (st : producer) (r : createRun_result) :
  (traceCount st <= traceCount (traceInterval_tick st r))%nat.
Proof. destruct r; simpl; lia. Qed.

Lemma traceCount_fold_le (rs : list createRun_result) : forall st,
  (traceCount st <= traceCount (fold_left traceInterval_tick rs st))%nat.
Proof.
  induction rs as [|r rs IH]; intros st; [reflexivity|].
  cbn [fold_left]. etransitivity; [apply traceCount_tick_le | apply IH].
Qed.

Lemma returned_calls_counts (v4 : nat -> string) (li : LargeInput)
    (lo : LargeOutput) (rs : list createRun_result) : forall tick st,
  List.map iteration (returned_calls (calls_from v4 li lo tick st rs)) =
  seq (traceCount st)
      (traceCount (fold_left traceInterval_tick rs st) - traceCount st).
Proof.
  induction rs as [|r rs IH]; intros tick st.
  - simpl. now rewrite Nat.sub_diag.
  - cbn [calls_from fold_left returned_calls flat_map snd fst].
    fold (returned_calls (calls_from v4 li lo (S tick)
                            (traceInterval_tick st r) rs)).
    pose proof (traceCount_fold_le rs (traceInterval_tick st r)) as Hle.
    destruct r as [e | p].
    + simpl app. rewrite IH. reflexivity.
    + cbn [app List.map]. rewrite IH.
      change (traceCount (traceInterval_tick st (Returns p)))
        with (S (traceCount st)) in *.
      replace (traceCount (fold_left traceInterval_tick rs
                             (traceInterval_tick st (Returns p)))
               - traceCount st)%nat
        with (S (traceCount (fold_left traceInterval_tick rs
                               (traceInterval_tick st (Returns p)))
                 - S (traceCount st)))%nat by lia.
      reflexivity.
Qed.

Lemma returned_calls_shape (v4 : nat -> string) (li : LargeInput)
    (lo : LargeOutput) (rs : list createRun_result) : forall tick st,
  Forall (fun c => name c = run_name (iteration c) /\
                   dotted_order c = "20241013T070535809001Z" ++ trace_id c /\
                   inputs c = li /\ outputs c = lo)
         (returned_calls (calls_from v4 li lo tick st rs)).
Proof.
  induction rs as [|r rs IH]; intros tick st; [constructor|].
  cbn [calls_from returned_calls flat_map snd fst].
  fold (returned_calls (calls_from v4 li lo (S tick)
                          (traceInterval_tick st r) rs)).
  destruct r as [e | p]; [apply IH|].
  cbn [app]. constructor; [|apply IH]. repeat split.
Qed.

(** X8.  The runs whose [createRun] call returned are numbered without gaps:
    the [k]-th of them has [iteration] [k] and the name ["test-run-"]
    followed by the decimal digits of [k], so their names are pairwise
    distinct, and there are as many as the final [traceCount].  A call that
    throws is not counted, and its number goes to the next call.  Every run
    carries the same two payloads, and its [dotted_order] is the fixed
    timestamp followed by its own [trace_id]. *)
Theorem returned_runs_numbered (v4 : nat -> string) (li : LargeInput)
    (lo : LargeOutput) (rs : list createRun_result) :
  let runs := returned_calls (calls_from v4 li lo 0 producer_start rs) in
  List.map iteration runs = seq 0 (traceCount (run_ticks rs)) /\
  List.map name runs = List.map run_name (seq 0 (traceCount (run_ticks rs))) /\
  NoDup (List.map name runs) /\
  Forall (fun c => dotted_order c = "20241013T070535809001Z" ++ trace_id c /\
                   inputs c = li /\ outputs c = lo) runs.
Proof.
  intros runs.
  assert (Hcount : List.map iteration runs = seq 0 (traceCount (run_ticks rs))).
  { subst runs. rewrite returned_calls_counts. simpl. now rewrite Nat.sub_0_r. }
  pose proof (returned_calls_shape v4 li lo rs 0 producer_start) as Hshape.
  fold runs in Hshape.
  assert (Hnames : List.map name runs =
                   List.map run_name (seq 0 (traceCount (run_ticks rs)))).
  { rewrite <- Hcount, List.map_map. apply List.map_ext_in.
    intros c Hc. rewrite List.Forall_forall in Hshape. now apply Hshape. }
  split; [exact Hcount|]. split; [exact Hnames|]. split.
  - rewrite Hnames. apply (NoDup_fmap_2_strong run_name).
    + intros a b _ _. apply run_name_inj.
    + apply NoDup_seq.
  - eapply List.Forall_impl; [|exact Hshape]. intros c (_ & H). exact H.
Qed.

End CallFacts.

Section PayloadFacts.

Import Harness Reporting Payload.

Set Warnings "-abstract-large-number".

Local Open Scope nat_scope.

Variable random : nat -> double.
Variable now : nat -> Z.
Variable toString36 : double -> string.

Hypothesis random_unit : forall k, in_unit_interval (random k) = true.

(** ** The payloads *)

Lemma text_ok (calls n : nat) :
  String.length (generateRandomText random calls n) = n /\
  drawn_from chars (generateRandomText random calls n) = true.
Proof.
  destruct (generate_loop_spec random random_unit n calls "" eq_refl) as [H1 H2].
  split; [exact H1 | exact H2].
Qed.

Lemma list_sum_cons (a : nat) (l : list nat) : list_sum (a :: l) = a + list_sum l.
Proof. reflexivity. Qed.

Lemma array_from_loop_S {A : Type} (f : nat -> Gen A) (i n : nat) s :
  array_from_loop f i (S n) s =
  let (x, s1) := f i s in
  let (xs, s2) := array_from_loop f (S i) n s1 in
  (x :: xs, s2).
Proof.
  cbn [array_from_loop]. unfold bind. destruct (f i s) as [x s1].
  destruct (array_from_loop f (S i) n s1) as [xs s2]. reflexivity.
Qed.

(** One element of the context: two random values around 200 for the text,
    and one reading of the clock. *)
Lemma context_entry_run (i : nat) s :
  context_entry random now toString36 i s =
  (mkContextEntry
     (toString36 (random (random_calls s)))
     (generateRandomText random (S (random_calls s)) 200)
     (now (clock_calls s) + Z.of_nat i)%Z
     (mkContextMetadata i (random (S (random_calls s) + 200))),
   mkOracleState (S (S (random_calls s) + 200)) (S (clock_calls s))).
Proof. reflexivity. Qed.

Lemma intermediate_step_run (i : nat) s :
  intermediate_step random i s =
  (mkStep i
     (generateRandomText random (random_calls s) 150)
     (generateRandomText random (random_calls s + 150) 150)
     (generateRandomText random (random_calls s + 150 + 150) 100)
     (random (random_calls s + 150 + 150 + 100)),
   mkOracleState (S (random_calls s + 150 + 150 + 100)) (clock_calls s)).
Proof. reflexivity. Qed.

Lemma context_loop (remaining : nat) : forall i s,
  let (l, s') := array_from_loop (context_entry random now toString36)
                                 i remaining s in
  length l = remaining /\
  (forall j e, l !! j = Some e ->
     section (metadata e) = i + j /\
     String.length (content e) = 200 /\
     drawn_from chars (content e) = true /\
     timestamp e = (now (clock_calls s + j) + Z.of_nat (i + j))%Z) /\
  list_sum (List.map (fun e => String.length (content e)) l) = remaining * 200 /\
  random_calls s' = random_calls s + remaining * 202 /\
  clock_calls s' = clock_calls s + remaining.
Proof.
  induction remaining as [|n IH]; intros i s.
  - simpl. split; [reflexivity|].
    split; [intros j e H; discriminate H|]. repeat split; lia.
  - rewrite array_from_loop_S, context_entry_run. cbv beta iota.
    specialize (IH (S i)
      (mkOracleState (S (S (random_calls s) + 200)) (S (clock_calls s)))).
    destruct (array_from_loop (context_entry random now toString36) (S i) n
                (mkOracleState (S (S (random_calls s) + 200))
                               (S (clock_calls s)))) as [l s'].
    cbn [random_calls clock_calls] in IH.
    destruct IH as (Hlen & Helems & Hsum & Hcalls & Hclock).
    destruct (text_ok (S (random_calls s)) 200) as [Htl Hta].
    split; [cbn [length]; lia|]. split; [|split; [|split]].
    + intros [|j] e He.
      * injection He as <-. cbn [metadata section content timestamp].
        rewrite !Nat.add_0_r. repeat split; assumption.
      * destruct (Helems j e He) as (H1 & H2 & H3 & H4).
        rewrite H1, H4. repeat split; try assumption; try lia.
        f_equal; [f_equal; lia | lia].
    + cbn [List.map]. rewrite list_sum_cons, Hsum. cbn [content].
      rewrite Htl. lia.
    + lia.
    + lia.
Qed.

Lemma steps_loop (remaining : nat) : forall i s,
  let (l, s') := array_from_loop (intermediate_step random) i remaining s in
  length l = remaining /\
  (forall j st, l !! j = Some st ->
     step st = i + j /\
     String.length (action st) = 150 /\
     String.length (observation st) = 150 /\
     String.length (thought st) = 100 /\
     drawn_from chars (action st) = true /\
     drawn_from chars (observation st) = true /\
     drawn_from chars (thought st) = true) /\
  list_sum (List.map (fun st => String.length (action st) +
                                String.length (observation st) +
                                String.length (thought st)) l)
    = remaining * 400 /\
  random_calls s' = random_calls s + remaining * 401 /\
  clock_calls s' = clock_calls s.
Proof.
  induction remaining as [|n IH]; intros i s.
  - simpl. split; [reflexivity|].
    split; [intros j e H; discriminate H|]. repeat split; lia.
  - rewrite array_from_loop_S, intermediate_step_run. cbv beta iota.
    specialize (IH (S i)
      (mkOracleState (S (random_calls s + 150 + 150 + 100)) (clock_calls s))).
    destruct (array_from_loop (intermediate_step random) (S i) n
                (mkOracleState (S (random_calls s + 150 + 150 + 100))
                               (clock_calls s))) as [l s'].
    cbn [random_calls clock_calls] in IH.
    destruct IH as (Hlen & Helems & Hsum & Hcalls & Hclock).
    destruct (text_ok (random_calls s) 150) as [Ha1 Ha2].
    destruct (text_ok (random_calls s + 150) 150) as [Ho1 Ho2].
    destruct (text_ok (random_calls s + 150 + 150) 100) as [Ht1 Ht2].
    split; [cbn [length]; lia|]. split; [|split; [|split]].
    + intros [|j] st Hst.
      * injection Hst as <-. cbn [step action observation thought].
        rewrite Nat.add_0_r. repeat split; assumption.
      * destruct (Helems j st Hst) as (H1 & H2).
        split; [lia | exact H2].
    + cbn [List.map]. rewrite list_sum_cons, Hsum.
      cbn [action observation thought]. rewrite Ha1, Ho1, Ht1. lia.
    + lia.
    + lia.
Qed.

Lemma largeInput_run s :
  let (li, s1) := largeInput random now toString36 s in
  String.length (query li) = 5000 /\
  drawn_from chars (query li) = true /\
  length (context li) = 50 /\
  (forall j e, context li !! j = Some e ->
     section (metadata e) = j /\
     String.length (content e) = 200 /\
     drawn_from chars (content e) = true /\
     timestamp e = (now (clock_calls s + j) + Z.of_nat j)%Z) /\
  String.length (preferences (user_info li)) = 500 /\
  version (input_metadata li) = "1.0.0"%string /\
  input_text_length li = 5000 + 50 * 200 + 500 /\
  random_calls s1 = random_calls s + (5000 + 50 * 202 + 2 + 500 + 1) /\
  clock_calls s1 = clock_calls s + 51.
Proof.
  unfold largeInput, array_from. unfold bind at 1. unfold random_text at 1.
  unfold bind at 1.
  pose proof (context_loop 50 0
                (mkOracleState (random_calls s + 5000) (clock_calls s))) as Hloop.
  destruct (array_from_loop (context_entry random now toString36) 0 50
              (mkOracleState (random_calls s + 5000) (clock_calls s)))
    as [ctx s'].
  cbn [random_calls clock_calls] in Hloop.
  destruct Hloop as (Hlen & Helems & Hsum & Hcalls & Hclock).
  unfold bind, random_id, bind, math_random, random_text, date_now, ret.
  unfold input_text_length.
  cbn [query context user_info input_metadata preferences version
       random_calls clock_calls].
  destruct (text_ok (random_calls s) 5000) as [Hq1 Hq2].
  destruct (text_ok (S (S (random_calls s'))) 500) as [Hp1 Hp2].
  rewrite Hq1, Hp1, Hsum.
  repeat match goal with |- _ /\ _ => split end;
    try assumption; try reflexivity; try lia.
Qed.

Lemma largeOutput_run s :
  let (lo, s1) := largeOutput random s in
  String.length (result lo) = 10000 /\
  drawn_from chars (result lo) = true /\
  length (intermediate_steps lo) = 100 /\
  (forall j st, intermediate_steps lo !! j = Some st ->
     step st = j /\
     String.length (action st) = 150 /\
     String.length (observation st) = 150 /\
     String.length (thought st) = 100 /\
     drawn_from chars (action st) = true /\
     drawn_from chars (observation st) = true /\
     drawn_from chars (thought st) = true) /\
  (0 <= tokens_used (output_metadata lo) < 10000)%Z /\
  (0 <= floor (processing_time_ms (output_metadata lo)) < 1000)%Z /\
  output_text_length lo = 10000 + 100 * 400 /\
  random_calls s1 = random_calls s + (10000 + 100 * 401 + 3) /\
  clock_calls s1 = clock_calls s.
Proof.
  unfold largeOutput, array_from. unfold bind at 1. unfold random_text at 1.
  unfold bind at 1.
  pose proof (steps_loop 100 0
                (mkOracleState (random_calls s + 10000) (clock_calls s))) as Hloop.
  destruct (array_from_loop (intermediate_step random) 0 100
              (mkOracleState (random_calls s + 10000) (clock_calls s)))
    as [steps s'].
  cbn [random_calls clock_calls] in Hloop.
  destruct Hloop as (Hlen & Helems & Hsum & Hcalls & Hclock).
  unfold bind, math_random, ret.
  unfold output_text_length.
  cbn [result intermediate_steps output_metadata tokens_used
       processing_time_ms random_calls clock_calls].
  destruct (text_ok (random_calls s) 10000) as [Hr1 Hr2].
  rewrite Hr1, Hsum.
  pose proof (floor_mul_int_bounds (random (S (random_calls s'))) 10000
                (random_unit _) ltac:(reflexivity)) as Htok.
  pose proof (floor_mul_int_bounds (random (random_calls s')) 1000
                (random_unit _) ltac:(reflexivity)) as Htime.
  repeat match goal with |- _ /\ _ => split end;
    try assumption; try reflexivity; try lia.
Qed.

End PayloadFacts.

Section PayloadClaims.

Import Harness Reporting Payload.

Set Warnings "-abstract-large-number".

Local Open Scope nat_scope.

(** X9.  Whatever values below 1 [Math.random()] returns, the two payloads
    built before the first tick have a fixed shape.  [largeInput] has a query
    of 5000 characters, 50 context entries (the [j]-th with section [j], a
    text of 200 characters of [chars] and the time of its own clock reading
    plus [j]) and preferences of 500 characters; [largeOutput] has a result
    of 10000 characters and 100 steps (the [j]-th numbered [j], with texts
    of 150, 150 and 100 characters), [tokens_used] from 0 to 9999 and a
    processing time below 1000.  Together they hold 65,500 characters of
    random text; building them takes 65,706 calls of [Math.random()] and 51
    of [Date.now()]. *)
Theorem payloads_shape (random : nat -> double) (now : nat -> Z)
    (toString36 : double -> string) (s : oracle_state) :
  (forall k, in_unit_interval (random k) = true) ->
  let '(li, lo, s') := payloads random now toString36 s in
  (String.length (query li) = 5000 /\
   length (context li) = 50 /\
   (forall j e, context li !! j = Some e ->
      section (metadata e) = j /\
      String.length (content e) = 200 /\
      drawn_from chars (content e) = true /\
      timestamp e = (now (clock_calls s + j)%nat + Z.of_nat j)%Z) /\
   String.length (preferences (user_info li)) = 500) /\
  (String.length (result lo) = 10000 /\
   length (intermediate_steps lo) = 100 /\
   (forall j st, intermediate_steps lo !! j = Some st ->
      step st = j /\
      String.length (action st) = 150 /\
      String.length (observation st) = 150 /\
      String.length (thought st) = 100) /\
   (0 <= tokens_used (output_metadata lo) < 10000)%Z /\
   (0 <= floor (processing_time_ms (output_metadata lo)) < 1000)%Z) /\
  input_text_length li + output_text_length lo
    = (5000 + 50 * 200 + 500) + (10000 + 100 * 400) /\
  random_calls s'
    = random_calls s + (5000 + 50 * 202 + 2 + 500 + 1) + (10000 + 100 * 401 + 3) /\
  clock_calls s' = clock_calls s + 51.
Proof.
  intros Hrandom. unfold payloads. unfold bind at 1.
  pose proof (largeInput_run random now toString36 Hrandom s) as Hin.
  destruct (largeInput random now toString36 s) as [li s1].
  unfold bind at 1.
  pose proof (largeOutput_run random Hrandom s1) as Hout.
  destruct (largeOutput random s1) as [lo s2].
  unfold ret.
  destruct Hin as (Hq & _ & Hctx & Helems & Hprefs & _ & Hitext & Hicalls & Hiclock).
  destruct Hout as (Hr & _ & Hsteps & Hselems & Htok & Htime & Hotext
                    & Hocalls & Hoclock).
  split; [repeat split; try assumption; apply (Helems j e); assumption|].
  split.
  { split; [exact Hr|]. split; [exact Hsteps|]. split; [|split; assumption].
    intros j st Hst. destruct (Hselems j st Hst) as (H1 & H2 & H3 & H4 & _).
    repeat split; assumption. }
  split; [rewrite Hitext, Hotext; reflexivity|].
  split; [rewrite Hocalls, Hicalls; lia|].
  rewrite Hoclock, Hiclock. reflexivity.
Qed.

Lemma payloads_shape_witness :
  let '(li, lo, s') :=
    payloads always_half (fun k => 1760000000000 + Z.of_nat k)%Z
             (fun _ => "0.i"%string) (mkOracleState 0 0) in
  (String.length (query li) = 5000 /\
   length (context li) = 50 /\
   (forall j e, context li !! j = Some e ->
      section (metadata e) = j /\
      String.length (content e) = 200 /\
      drawn_from chars (content e) = true /\
      timestamp e =
        (1760000000000 + Z.of_nat (clock_calls (mkOracleState 0 0) + j)%nat
         + Z.of_nat j)%Z) /\
   String.length (preferences (user_info li)) = 500) /\
  (String.length (result lo) = 10000 /\
   length (intermediate_steps lo) = 100 /\
   (forall j st, intermediate_steps lo !! j = Some st ->
      step st = j /\
      String.length (action st) = 150 /\
      String.length (observation st) = 150 /\
      String.length (thought st) = 100) /\
   (0 <= tokens_used (output_metadata lo) < 10000)%Z /\
   (0 <= floor (processing_time_ms (output_metadata lo)) < 1000)%Z) /\
  input_text_length li + output_text_length lo
    = (5000 + 50 * 200 + 500) + (10000 + 100 * 400) /\
  random_calls s'
    = random_calls (mkOracleState 0 0)
      + (5000 + 50 * 202 + 2 + 500 + 1) + (10000 + 100 * 401 + 3) /\
  clock_calls s' = clock_calls (mkOracleState 0 0) + 51.
Proof.
  apply (payloads_shape always_half (fun k => 1760000000000 + Z.of_nat k)%Z
           (fun _ => "0.i"%string) (mkOracleState 0 0)).
  intros k. reflexivity.
Defined.

End PayloadClaims.
